(** * Binary bomb: the virtual machine of the puzzle

    The repository holds two versions of the [BombGame] component:
    - the sparse-line-map version (generic CJUMP/JUMP/COPY, 1-indexed,
      self-modifying, with a viewport), module [Sparse] below;
    - the fixed-length-array version of [src/BombGame.js] (BEQ/BNE/BGT/BLT
      and JMP, 0-indexed), module [Fixed] below.

    Modelling conventions.  JavaScript numbers are modelled as [Z]: the
    development covers runs whose numbers stay integers (no NaN, no
    rounding), and register snapshots that hold the register T; where a
    statement depends on arithmetic being exact it says so with
    [safeInteger].  A JS string is modelled by the bytes of its UTF-8
    encoding.  A JS object used as a dictionary is a [gmap]; the two names
    that a plain object treats specially are modelled where they matter:
    an assignment to [__proto__] ([setRegister]) and a register named
    [hasOwnProperty] ([getValueThrows]).  An instruction is a record with
    both fields [op] and [args] present.  React state is threaded
    explicitly through a [Session] record: every [setX] call of the source
    is a field update of the returned record. *)

From Stdlib Require Import ZArith Ascii String List Sorting.Sorted.
From stdpp Require Import base option list sorting gmap fin_maps fin_sets strings pretty.

Open Scope Z_scope.

(** ** Instructions *)

(** An operand as it appears in [instr.args]: a JS number or a JS string. *)
Inductive Arg :=
  | ANum (n : Z)
  | AStr (s : string).

(** The [op] field.  Both instruction sets are covered; [OTHER] stands for
    any string that neither [switch] knows. *)
Inductive Opcode :=
  | ADD | JUMP | CJUMP | COPY | EMPTY | TTRAVEL | DEFUSE | EXPLODE
  | JMP | BEQ | BNE | BGT | BLT
  | OTHER (name : string).

Record Instr := mkInstr { op : Opcode; args : list Arg }.

#[global] Instance Arg_eq_dec : EqDecision Arg.
Proof. solve_decision. Defined.
#[global] Instance Opcode_eq_dec : EqDecision Opcode.
Proof. solve_decision. Defined.
#[global] Instance Instr_eq_dec : EqDecision Instr.
Proof. solve_decision. Defined.

(** [{ op: "EMPTY", args: [] }] *)
Definition emptyInstr : Instr := mkInstr EMPTY [].

#[global] Instance Instr_inhabited : Inhabited Instr := populate emptyInstr.

(** A register snapshot: a JS object from register names to numbers. *)
Abbreviation Registers := (gmap string Z).

(** [instr.args[i]]: [None] is JS [undefined]. *)
Definition argAt (instr : Instr) (i : nat) : option Arg := args instr !! i.

(** ** Value resolver *)

(** The property key JS derives from a value used as [obj[v]]. *)
Definition propertyKey (a : option Arg) : string :=
  match a with
  | Some (AStr s) => s
  | Some (ANum n) => pretty n
  | None => "undefined"
  end.

(** [parseInt(s, 10)]: skip leading white space, read an optional sign,
    then the longest run of decimal digits; [None] is NaN (no digit).
    White space is what the JS grammar calls StrWhiteSpaceChar: the
    one-byte characters of [isWhite] (TAB, LF, VT, FF, CR, space) and, in
    UTF-8, U+00A0, U+1680, U+2000 to U+200A, U+2028, U+2029, U+202F,
    U+205F, U+3000 and U+FEFF.  The digits are accumulated exactly. *)
Definition isWhite (c : ascii) : bool :=
  let n := nat_of_ascii c in
  bool_decide (n = 9 ∨ n = 10 ∨ n = 11 ∨ n = 12 ∨ n = 13 ∨ n = 32)%nat.

(** The second byte of U+00A0, after the lead byte C2. *)
Definition isWhite2 (c1 c2 : ascii) : bool :=
  bool_decide (nat_of_ascii c1 = 194 ∧ nat_of_ascii c2 = 160)%nat.

(** The three-byte white space characters. *)
Definition isWhite3 (c1 c2 c3 : ascii) : bool :=
  let n1 := nat_of_ascii c1 in
  let n2 := nat_of_ascii c2 in
  let n3 := nat_of_ascii c3 in
  bool_decide
    ((n1 = 225 ∧ n2 = 154 ∧ n3 = 128)
     ∨ (n1 = 226 ∧ n2 = 128
        ∧ (128 ≤ n3 ≤ 138 ∨ n3 = 168 ∨ n3 = 169 ∨ n3 = 175))
     ∨ (n1 = 226 ∧ n2 = 129 ∧ n3 = 159)
     ∨ (n1 = 227 ∧ n2 = 128 ∧ n3 = 128)
     ∨ (n1 = 239 ∧ n2 = 187 ∧ n3 = 191))%nat.

(** The lead bytes of the white space characters of two and three bytes. *)
Definition isLead2 (c : ascii) : bool := bool_decide (nat_of_ascii c = 194)%nat.
Definition isLead3 (c : ascii) : bool :=
  let n := nat_of_ascii c in
  bool_decide (n = 225 ∨ n = 226 ∨ n = 227 ∨ n = 239)%nat.

Fixpoint skipWhite (s : string) : string :=
  match s with
  | String c1 s1 =>
      if isWhite c1 then skipWhite s1
      else if isLead2 c1 then
        match s1 with
        | String c2 s2 => if isWhite2 c1 c2 then skipWhite s2 else s
        | EmptyString => s
        end
      else if isLead3 c1 then
        match s1 with
        | String c2 (String c3 s3) =>
            if isWhite3 c1 c2 c3 then skipWhite s3 else s
        | _ => s
        end
      else s
  | EmptyString => s
  end.

Definition digitOf (c : ascii) : option Z :=
  let n := nat_of_ascii c in
  if bool_decide (48 ≤ n ≤ 57)%nat then Some (Z.of_nat n - 48) else None.

Fixpoint readDigits (s : string) (acc : option Z) : option Z :=
  match s with
  | String c s' =>
      match digitOf c with
      | Some d => readDigits s' (Some (10 * default 0 acc + d))
      | None => acc
      end
  | EmptyString => acc
  end.

Definition parseInt (s : string) : option Z :=
  match skipWhite s with
  | String "-" r => Z.opp <$> readDigits r None
  | String "+" r => readDigits r None
  | r => readDigits r None
  end.

(** [getValue(arg, regs)], identical in both versions:
<<
    if (typeof arg === "number") return arg;
    if (regs.hasOwnProperty(arg)) return regs[arg];
    const num = parseInt(arg, 10);
    return isNaN(num) ? 0 : num;
>>
    A missing operand ([undefined]) goes through the same two last lines
    as the string ["undefined"]. *)
Definition getValue (arg : option Arg) (regs : Registers) : Z :=
  match arg with
  | Some (ANum n) => n
  | _ =>
      let name := propertyKey arg in
      match regs !! name with
      | Some v => v
      | None => default 0 (parseInt name)
      end
  end.

(** [regs.hasOwnProperty(arg)], the second line of [getValue], calls what
    the snapshot holds under the name [hasOwnProperty].  A register of
    that name is a number, and the call of a number throws a TypeError; a
    number operand returns on the line before. *)
Definition getValueThrows (arg : option Arg) (regs : Registers) : bool :=
  match arg with
  | Some (ANum _) => false
  | _ => bool_decide (is_Some (regs !! "hasOwnProperty"))
  end.

(** [regs[dest] = v].  The name [__proto__] is an accessor of every plain
    object: unless the snapshot has a register of its own under that name,
    assigning a number to it creates no register and changes nothing. *)
Definition setRegister (dest : option Arg) (v : Z) (regs : Registers) : Registers :=
  let name := propertyKey dest in
  if decide (name = "__proto__" ∧ regs !! name = None) then regs
  else <[name := v]> regs.

(** [regs.T]; 0 stands in for the [undefined] of a snapshot without T, which
    the statements below exclude. *)
Definition getT (regs : Registers) : Z := default 0 (regs !! "T").

(** ** Program store (sparse-line-map version) *)

Abbreviation Program := (gmap Z Instr).

(** [convertProgram]: a list gets the line numbers 1, 2, ...; a dictionary
    keeps its (numeric) keys. *)
Inductive LevelProgram :=
  | ProgList (l : list Instr)
  | ProgDict (d : Program).

Definition convertProgram (prog : LevelProgram) : Program :=
  match prog with
  | ProgList l =>
      foldl (fun newProg '(index, instr) => <[Z.of_nat index + 1 := instr]> newProg)
            ∅ (imap (fun index instr => (index, instr)) l)
  | ProgDict d => d
  end.

(** [Object.keys(prog).map(Number).sort((a, b) => a - b)] *)
Definition sortedKeys (prog : Program) : list Z :=
  merge_sort Z.le (elements (dom prog)).

(** [insertLine(prog, target, newInstr)] *)
Definition insertLine (prog : Program) (target : Z) (newInstr : Instr) : Program :=
  let newProg :=
    foldl (fun newProg key =>
             if bool_decide (key >= target)
             then <[key + 1 := prog !!! key]> newProg
             else <[key := prog !!! key]> newProg)
          ∅ (sortedKeys prog) in
  <[target := newInstr]> newProg.

(** ** Viewport builder *)

(** An entry of [displayLines]: [{ line: "...", instr: null }] is [Gap]. *)
Inductive DisplayLine :=
  | Gap
  | Line (line : Z) (instr : Instr).

(** The [keysSet] of [getDisplayedProgram], before sorting. *)
Definition displayKeys (prog : Program) (pc : Z) : gset Z :=
  let keysSet :=
    foldl (fun keysSet num => keysSet ∪ {[num]} ∪ {[num - 1]} ∪ {[num + 1]})
          ∅ (elements (dom prog)) in
  keysSet ∪ {[pc - 1]} ∪ {[pc]} ∪ {[pc + 1]}.

(** The [for] loop of [getDisplayedProgram]; [prev] is [keys[i - 1]], absent
    when [i = 0]. *)
Fixpoint displayLoop (prog : Program) (prev : option Z) (keys : list Z)
  : list DisplayLine :=
  match keys with
  | [] => []
  | line :: rest =>
      let instr := default emptyInstr (prog !! line) in
      let entry := Line line instr :: displayLoop prog (Some line) rest in
      match prev with
      | Some p => if bool_decide (line - p > 1) then Gap :: entry else entry
      | None => entry
      end
  end.

Definition getDisplayedProgram (prog : Program) (pc : Z) : list DisplayLine :=
  let keys := merge_sort Z.le (elements (displayKeys prog pc)) in
  displayLoop prog None keys.

(** ** Game status and levels *)

Inductive GameStatus := waiting | running | won | lost.

#[global] Instance GameStatus_eq_dec : EqDecision GameStatus.
Proof. solve_decision. Defined.

(** The comparison of a CJUMP: [switch (operator)] over the four strings. *)
Definition cjumpCondition (operator : option Arg) (leftValue rightValue : Z) : bool :=
  match operator with
  | Some (AStr o) =>
      if decide (o = "<") then bool_decide (leftValue < rightValue)
      else if decide (o = ">") then bool_decide (leftValue > rightValue)
      else if decide (o = "=") then bool_decide (leftValue = rightValue)
      else if decide (o = "≠") then bool_decide (leftValue ≠ rightValue)
      else false
  | _ => false
  end.

Record Level := mkLevel {
  levelProgram : LevelProgram;
  initialRegisters : Registers
}.

(** ** The sparse-line-map version *)

Module Sparse.

(** The React state of [BombGame] that the interpreter reads and writes
    (the tooltip and the text of the input box are presentation only). *)
Record Session := mkSession {
  registers : Registers;
  pc : Z;
  history : gmap Z Registers;
  gameStatus : GameStatus;
  isRunning : bool;
  program : Program
}.

Definition setRegisters (v : Registers) (s : Session) : Session :=
  mkSession v (pc s) (history s) (gameStatus s) (isRunning s) (program s).
Definition setPC (v : Z) (s : Session) : Session :=
  mkSession (registers s) v (history s) (gameStatus s) (isRunning s) (program s).
Definition setHistory (v : gmap Z Registers) (s : Session) : Session :=
  mkSession (registers s) (pc s) v (gameStatus s) (isRunning s) (program s).
Definition setGameStatus (v : GameStatus) (s : Session) : Session :=
  mkSession (registers s) (pc s) (history s) v (isRunning s) (program s).
Definition setIsRunning (v : bool) (s : Session) : Session :=
  mkSession (registers s) (pc s) (history s) (gameStatus s) v (program s).
Definition setProgram (v : Program) (s : Session) : Session :=
  mkSession (registers s) (pc s) (history s) (gameStatus s) (isRunning s) v.

(** The initial values of the [useState] calls. *)
Definition initialSession (level : Level) : Session :=
  mkSession (initialRegisters level) 1 {[ 0 := initialRegisters level ]}
            waiting false (convertProgram (levelProgram level)).

(** [resetGame(newA)]: [None] when [parseInt(newA, 10)] is NaN, a value the
    integer registers of this model cannot hold. *)
Definition resetGame (level : Level) (newA : string) : option Session :=
  initialA ← parseInt newA;
  let initRegs := <["A" := initialA]> (initialRegisters level) in
  Some (mkSession initRegs 1 {[ 0 := initRegs ]} waiting false
                  (convertProgram (levelProgram level))).

(** [program[pc] || { op: "EMPTY", args: [] }] *)
Definition fetch (s : Session) : Instr := default emptyInstr (program s !! pc s).

(** [source in program ? program[source] : { op: "EMPTY", args: [] }] *)
Definition copySource (s : Session) (source : Z) : Instr :=
  default emptyInstr (program s !! source).

(** The body of [step] after the fetch.  The [switch] yields the new
    registers, the new pc, and the session with the state setters the case
    called ([setProgram], [setGameStatus], [setIsRunning]); the three
    setters after the [switch] follow. *)
Definition execInstr (instr : Instr) (s : Session) : Session :=
  let newT := getT (registers s) + 1 in
  let newRegisters := <["T" := newT]> (registers s) in
  let newPC :=
    if bool_decide (op instr = DEFUSE ∨ op instr = EXPLODE) then pc s else pc s + 1 in
  let '(newRegisters, newPC, s') :=
    match op instr with
    | ADD =>
        let val1 := getValue (argAt instr 0) newRegisters in
        let val2 := getValue (argAt instr 1) newRegisters in
        let dest := argAt instr 2 in
        (setRegister dest (val1 + val2) newRegisters, newPC, s)
    | JUMP => (newRegisters, getValue (argAt instr 0) newRegisters, s)
    | CJUMP =>
        let leftValue := getValue (argAt instr 0) newRegisters in
        let operator := argAt instr 1 in
        let rightValue := getValue (argAt instr 2) newRegisters in
        let target := getValue (argAt instr 3) newRegisters in
        let condition := cjumpCondition operator leftValue rightValue in
        (newRegisters, if condition then target else newPC, s)
    | COPY =>
        if bool_decide (length (args instr) = 2%nat) then
          let source := getValue (argAt instr 0) newRegisters in
          let target := getValue (argAt instr 1) newRegisters in
          let copyInstr := copySource s source in
          let newProgram := insertLine (program s) target copyInstr in
          (newRegisters,
           if bool_decide (pc s >= target) then newPC + 1 else newPC,
           setProgram newProgram s)
        else
          let source := getValue (argAt instr 0) newRegisters in
          let target := pc s + 1 in
          let copyInstr := copySource s source in
          let newProgram := insertLine (program s) target copyInstr in
          (newRegisters, newPC, setProgram newProgram s)
    | EMPTY => (newRegisters, newPC, s)
    | TTRAVEL =>
        let travelTime := getT newRegisters in
        (match history s !! travelTime with
         | Some recorded => recorded
         | None => newRegisters
         end, newPC, s)
    | DEFUSE => (newRegisters, newPC, setIsRunning false (setGameStatus won s))
    | EXPLODE => (newRegisters, newPC, setIsRunning false (setGameStatus lost s))
    | _ => (newRegisters, newPC, s)
    end in
  setPC newPC
    (setRegisters newRegisters
       (setHistory (<[getT newRegisters := newRegisters]> (history s')) s')).

(** [step()] *)
Definition step (s : Session) : Session := execInstr (fetch s) s.

(** [manualStep()].  [step] reads neither [gameStatus] nor [isRunning], and
    its own [setGameStatus] comes last, so running it on the updated record
    is the batch of state updates React applies. *)
Definition manualStep (s : Session) : Session :=
  let s := setIsRunning false s in
  let s := if decide (gameStatus s = waiting) then setGameStatus running s else s in
  step s.

(** The session controller: what the page lets happen to a session.
    - [tick]: the timer of the auto-run effect, which returns early unless
      [isRunning] and [gameStatus === "running"];
    - [clickStep]: the Step button, disabled when the game is won or lost;
    - [clickRun]: the Run button, disabled unless the game is waiting. *)
Definition tick (s : Session) : Session :=
  if negb (isRunning s) || negb (bool_decide (gameStatus s = running)) then s
  else step s.

Definition clickStep (s : Session) : Session :=
  if bool_decide (gameStatus s = won ∨ gameStatus s = lost) then s
  else manualStep s.

Definition clickRun (s : Session) : Session :=
  if bool_decide (gameStatus s ≠ waiting) then s
  else
    let s := if decide (gameStatus s = waiting) then setGameStatus running s else s in
    setIsRunning true s.

Inductive Event := Tick | ClickStep | ClickRun.

Definition fire (s : Session) (e : Event) : Session :=
  match e with
  | Tick => tick s
  | ClickStep => clickStep s
  | ClickRun => clickRun s
  end.

Definition terminal (s : Session) : Prop := gameStatus s = won ∨ gameStatus s = lost.

End Sparse.

(** ** The fixed-length-array version ([src/BombGame.js]) *)

Module Fixed.

(** The program is [level.program], an array that no instruction changes;
    it is not part of the state. *)
Record Session := mkSession {
  registers : Registers;
  pc : Z;
  history : gmap Z Registers;
  gameStatus : GameStatus;
  isRunning : bool
}.

Definition setRegisters (v : Registers) (s : Session) : Session :=
  mkSession v (pc s) (history s) (gameStatus s) (isRunning s).
Definition setPC (v : Z) (s : Session) : Session :=
  mkSession (registers s) v (history s) (gameStatus s) (isRunning s).
Definition setHistory (v : gmap Z Registers) (s : Session) : Session :=
  mkSession (registers s) (pc s) v (gameStatus s) (isRunning s).
Definition setGameStatus (v : GameStatus) (s : Session) : Session :=
  mkSession (registers s) (pc s) (history s) v (isRunning s).
Definition setIsRunning (v : bool) (s : Session) : Session :=
  mkSession (registers s) (pc s) (history s) (gameStatus s) v.

(** A jump target is stored in [pc] as it stands in [instr.args], without
    [getValue].  The model keeps [pc] an integer: a target that is not a
    number literal has no image ([None]). *)
Definition rawLine (a : option Arg) : option Z :=
  match a with
  | Some (ANum n) => Some n
  | _ => None
  end.

(** [newRegisters[reg] <cmp> cmpVal] for the four branches; [None] is the
    [undefined] of a name that is no register: it is [!==] every number and
    fails the three other comparisons. *)
Definition branchTaken (o : Opcode) (reg : option Z) (cmpVal : Z) : bool :=
  match o, reg with
  | BEQ, Some v => bool_decide (v = cmpVal)
  | BNE, Some v => bool_decide (v ≠ cmpVal)
  | BGT, Some v => bool_decide (v > cmpVal)
  | BLT, Some v => bool_decide (v < cmpVal)
  | BNE, None => true
  | _, _ => false
  end.

(** [step()].  The result is [None] only when the step would store a pc
    that is not a number (see [rawLine]). *)
Definition step (program : list Instr) (s : Session) : option Session :=
  if bool_decide (pc s < 0 ∨ pc s >= Z.of_nat (length program)) then
    Some (setIsRunning false (setGameStatus lost s))
  else
    let instr := program !!! Z.to_nat (pc s) in
    let newT := getT (registers s) + 1 in
    let newRegisters := <["T" := newT]> (registers s) in
    let newPC := Some (pc s + 1) in
    let '(newRegisters, newPC, s') :=
      match op instr with
      | ADD =>
          let val1 := getValue (argAt instr 0) newRegisters in
          let val2 := getValue (argAt instr 1) newRegisters in
          let dest := argAt instr 2 in
          (setRegister dest (val1 + val2) newRegisters, newPC, s)
      | JMP => (newRegisters, rawLine (argAt instr 0), s)
      | BEQ | BNE | BGT | BLT =>
          let reg := argAt instr 0 in
          let cmpVal := getValue (argAt instr 1) newRegisters in
          let target := argAt instr 2 in
          (newRegisters,
           if branchTaken (op instr) (newRegisters !! propertyKey reg) cmpVal
           then rawLine target else newPC,
           s)
      | TTRAVEL =>
          let travelTime := getT newRegisters in
          (match history s !! travelTime with
           | Some recorded => recorded
           | None => newRegisters
           end, newPC, s)
      | DEFUSE => (newRegisters, newPC, setIsRunning false (setGameStatus won s))
      | EXPLODE => (newRegisters, newPC, setIsRunning false (setGameStatus lost s))
      | _ => (newRegisters, newPC, s)
      end in
    newPC ← newPC;
    Some (setPC newPC
            (setRegisters newRegisters
               (setHistory (<[getT newRegisters := newRegisters]> (history s')) s'))).

(** [resetGame()], with the text of the input box as argument. *)
Definition resetGame (initial : Registers) (playerValue : string) : option Session :=
  initialA ← parseInt playerValue;
  let initRegs := <["A" := initialA]> initial in
  Some (mkSession initRegs 0 {[ 0 := initRegs ]} waiting false).

(** The auto-run timer and the Run button ([runGame]). *)
Definition tick (program : list Instr) (s : Session) : option Session :=
  if negb (isRunning s) || negb (bool_decide (gameStatus s = running)) then Some s
  else step program s.

Definition runGame (s : Session) : Session :=
  if decide (gameStatus s = waiting)
  then setIsRunning true (setGameStatus running s)
  else s.

(** The initial values of the [useState] calls, which the effect on
    [level] sets again. *)
Definition initialSession (initial : Registers) : Session :=
  mkSession initial 0 {[ 0 := initial ]} waiting false.

(** [n] firings of the timer. *)
Definition ticks (program : list Instr) (n : nat) (s : Session) : option Session :=
  Nat.iter n (fun o => o ≫= tick program) (Some s).

End Fixed.

(** ** The levels of the repository *)

(** Levels 1 to 4 of the sparse-line-map version. *)
Definition level1 : Level :=
  mkLevel
    (ProgList [ mkInstr CJUMP [AStr "A"; AStr "="; ANum 5; ANum 3];
                mkInstr EXPLODE [];
                mkInstr DEFUSE [] ])
    {[ "A" := 0; "T" := 0 ]}.

Definition level2 : Level :=
  mkLevel
    (ProgList [ mkInstr CJUMP [AStr "A"; AStr "<"; ANum 10; ANum 8];
                mkInstr CJUMP [AStr "A"; AStr ">"; ANum 50; ANum 8];
                mkInstr CJUMP [AStr "T"; AStr ">"; ANum 40; ANum 8];
                mkInstr CJUMP [AStr "B"; AStr "="; AStr "A"; ANum 7];
                mkInstr ADD [AStr "B"; AStr "B"; AStr "B"];
                mkInstr JUMP [ANum 3];
                mkInstr DEFUSE [];
                mkInstr EXPLODE [] ])
    {[ "A" := 0; "B" := 1; "T" := 0 ]}.

Definition level3 : Level :=
  mkLevel
    (ProgList [ mkInstr JUMP [ANum 5];
                mkInstr EXPLODE [];
                mkInstr DEFUSE [];
                mkInstr EXPLODE [];
                mkInstr ADD [AStr "A"; AStr "B"; AStr "B"];
                mkInstr COPY [AStr "B"];
                mkInstr CJUMP [AStr "T"; AStr ">"; AStr "15"; ANum 4];
                mkInstr JUMP [ANum 5] ])
    {[ "A" := 0; "B" := 1; "T" := 0 ]}.

Definition level4 : Level :=
  mkLevel
    (ProgList [ mkInstr JUMP [ANum 5];
                mkInstr EXPLODE [];
                mkInstr DEFUSE [];
                mkInstr EXPLODE [];
                mkInstr ADD [AStr "A"; AStr "B"; AStr "B"];
                mkInstr COPY [AStr "A"; AStr "B"];
                mkInstr CJUMP [AStr "T"; AStr ">"; AStr "15"; ANum 4];
                mkInstr JUMP [ANum 5] ])
    {[ "A" := 0; "B" := 2; "T" := 0 ]}.

Definition levels : list Level := [level1; level2; level3; level4].

(** The one level of [src/BombGame.js]. *)
Definition doublingProgram : list Instr :=
  [ mkInstr BLT [AStr "A"; ANum 10; ANum 7];
    mkInstr BGT [AStr "A"; ANum 50; ANum 7];
    mkInstr BGT [AStr "T"; ANum 40; ANum 7];
    mkInstr BEQ [AStr "B"; AStr "A"; ANum 6];
    mkInstr ADD [AStr "B"; AStr "B"; AStr "B"];
    mkInstr JMP [ANum 2];
    mkInstr DEFUSE [];
    mkInstr EXPLODE [] ].

Definition doublingRegisters : Registers := {[ "A" := 0; "B" := 1; "T" := 0 ]}.

(** ** Vocabulary of the statements *)

(** [Number.isSafeInteger]: the integers on which the arithmetic of JS
    numbers is exact, up to [Number.MAX_SAFE_INTEGER]. *)
Definition safeInteger (z : Z) : Prop := Z.abs z <= 2 ^ 53 - 1.

(** Where [insertLine] puts the line [key] of the old program. *)
Definition shifted (target key : Z) : Z :=
  if bool_decide (key >= target) then key + 1 else key.

(** The two instructions of the COPY scenario. *)
Definition addABC : Instr := mkInstr ADD [AStr "A"; AStr "B"; AStr "C"].
Definition copy13 : Instr := mkInstr COPY [ANum 1; ANum 3].

(** The snapshot operands are resolved against: [{ ...registers, T: newT }]. *)
Definition ticked (regs : Registers) : Registers :=
  <["T" := getT regs + 1]> regs.

(** The pc points into the array. *)
Definition inBounds (program : list Instr) (s : Fixed.Session) : Prop :=
  0 <= Fixed.pc s < Z.of_nat (length program).

(** Every snapshot of a history sits under its own T. *)
Definition historyKeyed (h : gmap Z Registers) : Prop :=
  ∀ k r, h !! k = Some r → r !! "T" = Some k.

(** The sessions of a level: the initial state or a reset, then steps,
    called directly or through the controller. *)
Inductive reachable (level : Level) : Sparse.Session → Prop :=
  | reach_init : reachable level (Sparse.initialSession level)
  | reach_reset newA s :
      Sparse.resetGame level newA = Some s → reachable level s
  | reach_step s :
      reachable level s → reachable level (Sparse.step s)
  | reach_fire s e :
      reachable level s → reachable level (Sparse.fire s e).

(** The invariant of the reachable sessions. *)
Definition timed (s : Sparse.Session) : Prop :=
  is_Some (Sparse.registers s !! "T") ∧ historyKeyed (Sparse.history s).

(** A level that travels in time: two increments of A, then T is pulled
    back to 0, then TTRAVEL.  The restored snapshot is the one recorded
    after the first increment. *)
Definition rewindLevel : Level :=
  mkLevel
    (ProgList [ mkInstr ADD [AStr "A"; ANum 1; AStr "A"];
                mkInstr ADD [AStr "A"; ANum 1; AStr "A"];
                mkInstr ADD [AStr "T"; ANum (-3); AStr "T"];
                mkInstr TTRAVEL [] ])
    {[ "A" := 0; "T" := 0 ]}.

Definition rewindSession : Sparse.Session :=
  match Sparse.resetGame rewindLevel "0" with
  | Some s => Sparse.step (Sparse.step (Sparse.step s))
  | None => Sparse.mkSession ∅ 1 ∅ waiting false ∅
  end.


(** [prog[line] || { op: "EMPTY", args: [] }] *)
Definition shownInstr (prog : Program) (line : Z) : Instr :=
  default emptyInstr (prog !! line).

(** The marker between two neighbours of the sorted key list. *)
Definition gapBetween (a b : Z) : list DisplayLine :=
  if bool_decide (b - a > 1) then [Gap] else [].

(** The order of the game states: waiting, then running, then won or
    lost. *)
Definition statusRank (st : GameStatus) : nat :=
  match st with
  | waiting => 0
  | running => 1
  | won | lost => 2
  end.

(** The current snapshot is the one the history holds at its T. *)
Definition recorded (s : Sparse.Session) : Prop :=
  Sparse.history s !! getT (Sparse.registers s) = Some (Sparse.registers s).



(** Every jump target of the program is a number literal. *)
Definition numericTargets (program : list Instr) : Prop :=
  ∀ instr, instr ∈ program →
    match op instr with
    | JMP => is_Some (Fixed.rawLine (argAt instr 0))
    | BEQ | BNE | BGT | BLT => is_Some (Fixed.rawLine (argAt instr 2))
    | _ => True
    end.

(** A tail that [parseInt] leaves unread: empty, or starting with a
    character that is no digit. *)
Definition unread (junk : string) : Prop :=
  match junk with
  | String c _ => digitOf c = None
  | EmptyString => True
  end.

(** A string of white space only. *)
Definition allWhite (ws : string) : Prop :=
  Forall (fun c => isWhite c = true) (list_ascii_of_string ws).

(** The session the Run button starts from, with [a] typed for register A
    (fixed-length-array version, doubling bomb). *)
Definition doublingStart (a : Z) : Fixed.Session :=
  Fixed.mkSession (<["A" := a]> doublingRegisters) 0
    {[ 0 := <["A" := a]> doublingRegisters ]} running true.

(** [n] firings of the timer of the sparse-line-map version. *)
Definition sparseTicks (n : nat) (s : Sparse.Session) : Sparse.Session :=
  Nat.iter n Sparse.tick s.

(** The session the Run button starts from, with [a] typed for register A
    (sparse-line-map version). *)
Definition sparseStart (level : Level) (a : Z) : Sparse.Session :=
  Sparse.mkSession (<["A" := a]> (initialRegisters level)) 1
    {[ 0 := <["A" := a]> (initialRegisters level) ]} running true
    (convertProgram (levelProgram level)).

(** * Properties *)

(** ** Program store: line insertion *)

Section insertLine_facts.
Context (prog : Program) (target : Z).

#[local] Instance shifted_inj : Inj (=) (=) (shifted target).
Proof.
  intros a b. unfold shifted. repeat case_bool_decide; lia.
Qed.

Lemma shifted_ne_target key : shifted target key ≠ target.
Proof. unfold shifted. case_bool_decide; lia. Qed.

Lemma moveLines_lookup (keys : list Z) (j : Z) (x : Instr) :
  (∀ key, key ∈ keys → is_Some (prog !! key)) →
  foldl (fun (newProg : Program) key =>
           if bool_decide (key >= target)
           then <[key + 1 := prog !!! key]> newProg
           else <[key := prog !!! key]> newProg) ∅ keys !! j = Some x
  ↔ ∃ key, key ∈ keys ∧ shifted target key = j ∧ prog !! key = Some x.
Proof.
  induction keys as [|key keys IH] using rev_ind; intros Hdom.
  - simpl. rewrite lookup_empty. split; [done|].
    intros (key & Hin & _). by apply elem_of_nil in Hin.
  - rewrite foldl_app. simpl.
    assert (Hkeys : ∀ k, k ∈ keys → is_Some (prog !! k)).
    { intros k Hk. apply Hdom, elem_of_app. by left. }
    specialize (IH Hkeys).
    destruct (Hdom key) as [y Hy]; [apply elem_of_app; right; by left|].
    rewrite (lookup_total_correct _ _ _ Hy).
    set (acc := foldl _ ∅ keys) in *.
    assert (Hstep : (if bool_decide (key >= target)
                     then <[key + 1 := y]> acc else <[key := y]> acc)
                    = <[shifted target key := y]> acc).
    { unfold shifted. by case_bool_decide. }
    rewrite Hstep. destruct (decide (shifted target key = j)) as [<-|Hne].
    + rewrite lookup_insert_eq. split.
      * intros [= <-]. exists key. split; [|done].
        apply elem_of_app. right. by left.
      * intros (k & _ & Hk & Hx). apply shifted_inj in Hk. congruence.
    + rewrite lookup_insert_ne by done. rewrite IH. split.
      * intros (k & Hin & Hk & Hx). exists k. split; [|done].
        apply elem_of_app. by left.
      * intros (k & Hin & Hk & Hx). exists k. split; [|done].
        apply elem_of_app in Hin as [Hin|Hin]; [done|].
        apply list_elem_of_singleton in Hin. congruence.
Qed.

Lemma elem_of_sortedKeys key : key ∈ sortedKeys prog ↔ is_Some (prog !! key).
Proof.
  unfold sortedKeys. rewrite merge_sort_Permutation, elem_of_elements.
  apply elem_of_dom.
Qed.

(** The loop of [insertLine] is the re-keying of the program by [shifted]. *)
Lemma insertLine_kmap (newInstr : Instr) :
  insertLine prog target newInstr
  = <[target := newInstr]> (kmap (shifted target) prog).
Proof.
  unfold insertLine. f_equal. apply map_eq. intros j. apply option_eq. intros x.
  rewrite moveLines_lookup by (intros key; apply elem_of_sortedKeys).
  rewrite lookup_kmap_Some by apply _. split.
  - intros (key & _ & Hk & Hx). eauto.
  - intros (key & Hk & Hx). exists key. split; [|done].
    apply elem_of_sortedKeys. eauto.
Qed.

Lemma size_kmap_shifted (m : Program) : size (kmap (shifted target) m : Program) = size m.
Proof.
  induction m as [|k x m Hk IH] using map_ind.
  - by rewrite kmap_empty, !map_size_empty.
  - rewrite kmap_insert by apply _.
    rewrite !map_size_insert_None; [by rewrite IH|done|].
    apply lookup_kmap_None; [apply _|].
    intros i Hi. apply shifted_inj in Hi. by subst.
Qed.

Lemma insertLine_lookup (newInstr : Instr) (k : Z) :
  insertLine prog target newInstr !! k =
    if decide (k = target) then Some newInstr
    else if decide (k < target) then prog !! k
    else prog !! (k - 1).
Proof.
  rewrite insertLine_kmap. destruct (decide (k = target)) as [->|Hne].
  - apply lookup_insert_eq.
  - rewrite lookup_insert_ne by done. destruct (decide (k < target)).
    + replace k with (shifted target k) at 1; [by apply lookup_kmap, _|].
      unfold shifted. case_bool_decide; lia.
    + replace k with (shifted target (k - 1)) at 1; [by apply lookup_kmap, _|].
      unfold shifted. case_bool_decide; lia.
Qed.

Lemma insertLine_size (newInstr : Instr) :
  size (insertLine prog target newInstr) = S (size prog).
Proof.
  rewrite insertLine_kmap, map_size_insert_None; [by rewrite size_kmap_shifted|].
  apply lookup_kmap_None; [apply _|].
  intros i Hi. symmetry in Hi. by apply shifted_ne_target in Hi.
Qed.
End insertLine_facts.

(** C1.  For every program store [S] and target [t] whose line numbers
    are safe integers (where the [key + 1] of the code is exact) and every
    instruction [i], [insertLine S t i] maps [t] to [i], maps [k + 1] to
    [S[k]] for every original key [k >= t], leaves every key [k < t] as it
    is in [S], holds no other entry, and has exactly one entry more than
    [S]. *)
Theorem insertLine_spec (S0 : Program) (t : Z) (i : Instr) :
  safeInteger t →
  map_Forall (fun k _ => safeInteger k) S0 →
  insertLine S0 t i !! t = Some i
  ∧ (∀ k x, S0 !! k = Some x → k >= t → insertLine S0 t i !! (k + 1) = Some x)
  ∧ (∀ k, k < t → insertLine S0 t i !! k = S0 !! k)
  ∧ (∀ k x, insertLine S0 t i !! k = Some x →
       (k = t ∧ x = i)
       ∨ (k < t ∧ S0 !! k = Some x)
       ∨ (∃ k0, k = k0 + 1 ∧ k0 >= t ∧ S0 !! k0 = Some x))
  ∧ size (insertLine S0 t i) = S (size S0).
Proof.
  intros _ _. split_and!.
  - rewrite insertLine_lookup. by rewrite decide_True.
  - intros k x Hk Hge. rewrite insertLine_lookup.
    rewrite decide_False by lia. rewrite decide_False by lia.
    by replace (k + 1 - 1) with k by lia.
  - intros k Hlt. rewrite insertLine_lookup.
    rewrite decide_False by lia. by rewrite decide_True.
  - intros k x. rewrite insertLine_lookup. repeat case_decide.
    + intros [= <-]. by left.
    + intros Hx. right. left. done.
    + intros Hx. right. right. exists (k - 1). split_and!; [lia|lia|done].
  - apply insertLine_size.
Qed.

Lemma insertLine_spec_witness :
  let S0 : Program := {[ 1 := mkInstr ADD [AStr "A"; AStr "B"; AStr "C"];
                         3 := mkInstr DEFUSE [] ]} in
  insertLine S0 3 emptyInstr !! 4 = Some (mkInstr DEFUSE [])
  ∧ insertLine S0 3 emptyInstr !! 1 = S0 !! 1.
Proof.
  intros S0.
  destruct (insertLine_spec S0 3 emptyInstr) as (_ & Hup & Hlow & _).
  - unfold safeInteger. by vm_compute.
  - apply (bool_decide_unpack _). by vm_compute.
  - split.
    + apply (Hup 3); [reflexivity | lia].
    + apply Hlow. lia.
Defined.

(** ** Value resolver *)

Lemma digitOf_char (d : N) :
  (d < 10)%N → digitOf (pretty_N_char d) = Some (Z.of_N d).
Proof.
  intros Hd.
  assert (d = 0 ∨ d = 1 ∨ d = 2 ∨ d = 3 ∨ d = 4 ∨ d = 5 ∨ d = 6 ∨ d = 7
          ∨ d = 8 ∨ d = 9)%N as Hcases by lia.
  repeat destruct Hcases as [->|Hcases]; try subst d; reflexivity.
Qed.

Lemma readDigits_pretty_go (x : N) :
  ∀ (s : string) (n v : Z), 0 <= n → (0 < x)%N →
    (∀ a, readDigits s (Some a) = Some (a * 10 ^ n + v)) →
    ∀ acc, default 0 acc = 0 →
      readDigits (pretty_N_go x s) acc = Some (Z.of_N x * 10 ^ n + v).
Proof.
  induction (N.lt_wf_0 x) as [x _ IH]. intros s n v Hn Hx Hs acc Hacc.
  rewrite pretty_N_go_step by done.
  assert (Hd : (x `mod` 10 < 10)%N) by (apply N.mod_lt; lia).
  assert (Hx10 : Z.of_N x = 10 * Z.of_N (x `div` 10) + Z.of_N (x `mod` 10)).
  { rewrite (N.div_mod x 10) at 1 by lia. lia. }
  assert (Hpow : 10 ^ (n + 1) = 10 * 10 ^ n) by (rewrite Z.pow_add_r; lia).
  destruct (decide (0 < x `div` 10)%N) as [Hpos|Hzero].
  - rewrite (IH (x `div` 10)%N) with (n := n + 1)
                                      (v := Z.of_N (x `mod` 10) * 10 ^ n + v);
      [f_equal; rewrite Hx10, Hpow; ring|by apply N.div_lt|lia|done| |done].
    intros a. simpl. rewrite digitOf_char by done. simpl.
    rewrite Hs. f_equal. rewrite Hpow. ring.
  - assert (Hq : (x `div` 10 = 0)%N) by lia. rewrite Hq in *.
    rewrite pretty_N_go_0. simpl. rewrite digitOf_char by done.
    rewrite Hs, Hacc. f_equal. rewrite Hx10. simpl Z.of_N. ring.
Qed.

Lemma pretty_go_head (x : N) :
  ∀ s, (0 < x)%N →
       ∃ d r, (d < 10)%N ∧ pretty_N_go x s = String (pretty_N_char d) r.
Proof.
  induction (N.lt_wf_0 x) as [x _ IH]. intros s Hx.
  rewrite pretty_N_go_step by done.
  destruct (N.eq_0_gt_0_cases (x `div` 10)) as [Hq|Hpos].
  - rewrite Hq, pretty_N_go_0.
    exists (x `mod` 10)%N, s. split; [apply N.mod_lt; lia|done].
  - apply IH; [by apply N.div_lt|done].
Qed.

Lemma parseInt_digit_head (d : N) (r : string) :
  (d < 10)%N →
  parseInt (String (pretty_N_char d) r) = readDigits (String (pretty_N_char d) r) None.
Proof.
  intros Hd.
  assert (d = 0 ∨ d = 1 ∨ d = 2 ∨ d = 3 ∨ d = 4 ∨ d = 5 ∨ d = 6 ∨ d = 7
          ∨ d = 8 ∨ d = 9)%N as Hcases by lia.
  repeat destruct Hcases as [->|Hcases]; try subst d; reflexivity.
Qed.

Lemma readDigits_pretty_pos (p : positive) :
  readDigits (pretty_N_go (N.pos p) "") None = Some (Z.pos p).
Proof.
  rewrite (readDigits_pretty_go (N.pos p) "" 0 0); [f_equal; lia|lia|lia| |done].
  intros a. simpl. f_equal. lia.
Qed.

(** A number written in decimal parses back to itself: a numeric-string
    token is coerced to the literal it spells. *)
Lemma parseInt_pretty (n : Z) : parseInt (pretty n) = Some n.
Proof.
  destruct n as [|p|p]; [done|..].
  - change (pretty (Z.pos p)) with (pretty_N_go (N.pos p) "").
    destruct (pretty_go_head (N.pos p) "") as (d & r & Hd & Hhead); [lia|].
    rewrite Hhead, parseInt_digit_head, <-Hhead by done.
    apply readDigits_pretty_pos.
  - change (pretty (Z.neg p)) with (String "-" (pretty_N_go (N.pos p) "")).
    unfold parseInt. simpl. by rewrite readDigits_pretty_pos.
Qed.



(** The error path of the code: once an ADD has made a register named
    [hasOwnProperty], resolving any operand that is not a number literal
    throws. *)
Lemma getValue_throws_on_shadowed_method :
  let regs : Registers := {[ "A" := 5; "T" := 0 ]} in
  let s0 := Sparse.mkSession regs 1 {[ 0 := regs ]} running false
              {[ 1 := mkInstr ADD [ANum 1; ANum 2; AStr "hasOwnProperty"] ]} in
  Sparse.registers (Sparse.step s0) !! "hasOwnProperty" = Some 3
  ∧ getValueThrows (Some (AStr "A")) (Sparse.registers (Sparse.step s0)) = true
  ∧ getValueThrows (Some (ANum 7)) (Sparse.registers (Sparse.step s0)) = false.
Proof. by vm_compute. Qed.

(** ** Interpreter: the COPY scenario *)

(** C2, as the spec states it, fails: executing COPY (1, 3) at [pc = 1]
    against the store [{1: ADD A,B,C}] gives the post-step pc 2, not 3
    ([pc >= tgt] is [1 >= 3]).  The same holds when the COPY is fetched
    from line 1 by [step]; line 3 then holds the COPY itself. *)
Lemma copy_scenario_pc_is_not_3 :
  let regs : Registers := {[ "A" := 0; "B" := 0; "C" := 0; "T" := 0 ]} in
  let s0 := Sparse.mkSession regs 1 {[ 0 := regs ]} running false {[ 1 := addABC ]} in
  let s1 := Sparse.mkSession regs 1 {[ 0 := regs ]} running false {[ 1 := copy13 ]} in
  Sparse.pc (Sparse.execInstr copy13 s0) = 2
  ∧ Sparse.pc (Sparse.execInstr copy13 s0) ≠ 3
  ∧ Sparse.fetch s0 = addABC
  ∧ Sparse.pc (Sparse.step s1) = 2
  ∧ Sparse.program (Sparse.step s1) !! 3 = Some copy13.
Proof. vm_compute. split_and!; done. Qed.

(** C2, amended.  Executing COPY (1, 3) at [pc = 1] against the store
    [{1: ADD A,B,C}] yields a store whose lines 1 and 3 both hold the
    original ADD A,B,C and whose line 2 is absent; the post-step pc is 2. *)
Theorem copy_scenario (regs : Registers) (hist : gmap Z Registers)
    (status : GameStatus) (run : bool) :
  let s0 := Sparse.mkSession regs 1 hist status run {[ 1 := addABC ]} in
  let s' := Sparse.execInstr copy13 s0 in
  Sparse.program s' = {[ 1 := addABC; 3 := addABC ]}
  ∧ Sparse.program s' !! 1 = Some addABC
  ∧ Sparse.program s' !! 3 = Some addABC
  ∧ Sparse.program s' !! 2 = None
  ∧ Sparse.pc s' = 2.
Proof.
  intros s0 s'.
  assert (Hprog : Sparse.program s' = {[ 1 := addABC; 3 := addABC ]}).
  { subst s' s0. unfold Sparse.execInstr, Sparse.copySource. simpl.
    by vm_compute. }
  split_and!; [done|by rewrite Hprog..|done].
Qed.

(** ** Interpreter: the program counter *)






(** ** Interpreter: the time register *)

Lemma ticked_T (regs : Registers) : ticked regs !! "T" = Some (getT regs + 1).
Proof. apply lookup_insert_eq. Qed.

Lemma getT_Some (regs : Registers) (t : Z) : regs !! "T" = Some t → getT regs = t.
Proof. unfold getT. by intros ->. Qed.

Lemma getT_ticked (regs : Registers) : getT (ticked regs) = getT regs + 1.
Proof. apply getT_Some, ticked_T. Qed.

Lemma setRegister_T (dest : option Arg) (v : Z) (regs : Registers) :
  setRegister dest v regs !! "T"
  = if decide (propertyKey dest = "T") then Some v else regs !! "T".
Proof.
  unfold setRegister. simpl. case_decide as Hproto.
  - destruct Hproto as [Hproto _]. rewrite Hproto. by rewrite decide_False.
  - case_decide as HT.
    + rewrite HT. apply lookup_insert_eq.
    + by apply lookup_insert_ne.
Qed.

(** The registers a step of the sparse-line-map version returns, by opcode. *)
Lemma step_registers (s : Sparse.Session) :
  Sparse.registers (Sparse.step s)
  = let i := Sparse.fetch s in
    let regs := ticked (Sparse.registers s) in
    match op i with
    | ADD => setRegister (argAt i 2)
               (getValue (argAt i 0) regs + getValue (argAt i 1) regs) regs
    | TTRAVEL => default regs (Sparse.history s !! (getT (Sparse.registers s) + 1))
    | _ => regs
    end.
Proof.
  unfold Sparse.step, Sparse.execInstr. fold (ticked (Sparse.registers s)).
  rewrite getT_ticked.
  destruct (op (Sparse.fetch s)); simpl; try done.
  by case_bool_decide.
Qed.





(** ** Interpreter: time travel *)



(** ** Interpreter: program counters off the program *)



(** ** Session controller: terminal states *)

Lemma fetch_manual (s : Sparse.Session) (st : GameStatus) (run : bool) :
  Sparse.fetch (Sparse.setGameStatus st (Sparse.setIsRunning run s)) = Sparse.fetch s.
Proof. done. Qed.

Lemma step_status (s : Sparse.Session) :
  Sparse.gameStatus (Sparse.step s)
  = match op (Sparse.fetch s) with
    | DEFUSE => won
    | EXPLODE => lost
    | _ => Sparse.gameStatus s
    end.
Proof.
  unfold Sparse.step, Sparse.execInstr.
  destruct (op (Sparse.fetch s)); simpl; try done.
  by case_bool_decide.
Qed.

Lemma manualStep_status (s : Sparse.Session) :
  Sparse.gameStatus (Sparse.manualStep s)
  = match op (Sparse.fetch s) with
    | DEFUSE => won
    | EXPLODE => lost
    | _ => if decide (Sparse.gameStatus s = waiting) then running
           else Sparse.gameStatus s
    end.
Proof.
  unfold Sparse.manualStep. rewrite step_status. simpl.
  destruct (decide (Sparse.gameStatus s = waiting)); simpl; done.
Qed.

Lemma fire_terminal (s : Sparse.Session) (e : Sparse.Event) :
  Sparse.terminal s → Sparse.fire s e = s.
Proof.
  intros Hterm. destruct e; simpl.
  - unfold Sparse.tick. destruct (Sparse.isRunning s); simpl; [|done].
    rewrite bool_decide_eq_false_2; [done|].
    destruct Hterm as [H|H]; rewrite H; discriminate.
  - unfold Sparse.clickStep. by rewrite bool_decide_eq_true_2.
  - unfold Sparse.clickRun. rewrite bool_decide_eq_true_2; [done|].
    destruct Hterm as [H|H]; rewrite H; discriminate.
Qed.

(** C4.  Executing DEFUSE sets the status to won and executing EXPLODE sets
    it to lost, whether the step comes from the timer or from the Step
    button.  In a won or lost session every step request the page can make
    (timer tick, Step button, Run button) returns the session as it is:
    registers, pc, store, history and status stay, through any number of
    requests. *)
Theorem terminal_status_spec :
  (∀ s, op (Sparse.fetch s) = DEFUSE →
     Sparse.gameStatus (Sparse.step s) = won
     ∧ Sparse.gameStatus (Sparse.manualStep s) = won)
  ∧ (∀ s, op (Sparse.fetch s) = EXPLODE →
     Sparse.gameStatus (Sparse.step s) = lost
     ∧ Sparse.gameStatus (Sparse.manualStep s) = lost)
  ∧ (∀ s e, Sparse.terminal s → Sparse.fire s e = s)
  ∧ (∀ s es, Sparse.terminal s → foldl Sparse.fire s es = s).
Proof.
  split_and!.
  - intros s H. rewrite step_status, manualStep_status. by rewrite H.
  - intros s H. rewrite step_status, manualStep_status. by rewrite H.
  - apply fire_terminal.
  - intros s es Hterm. induction es as [|e es IH]; simpl; [done|].
    by rewrite fire_terminal.
Qed.

Lemma terminal_status_spec_witness :
  let regs : Registers := {[ "A" := 5; "T" := 2 ]} in
  let s0 := Sparse.mkSession regs 3 {[ 0 := regs ]} running true
              (convertProgram (levelProgram level1)) in
  let s1 := Sparse.tick s0 in
  Sparse.gameStatus (Sparse.step s0) = won
  ∧ foldl Sparse.fire s1 [Sparse.Tick; Sparse.ClickStep; Sparse.ClickRun] = s1.
Proof.
  intros regs s0 s1.
  destruct terminal_status_spec as (Hwon & _ & _ & Hstay).
  split.
  - apply (Hwon s0). reflexivity.
  - apply Hstay. left. reflexivity.
Defined.

(** The guard lives in the controller, not in [step]: called on a won
    session, the function itself executes the DEFUSE under the pc again,
    so T and the history move while pc, store and status stay. *)
Lemma step_itself_is_unguarded :
  let regs : Registers := {[ "A" := 5; "T" := 3 ]} in
  let s0 := Sparse.mkSession regs 3 {[ 0 := regs ]} won false
              (convertProgram (levelProgram level1)) in
  Sparse.registers (Sparse.step s0) !! "T" = Some 4
  ∧ Sparse.pc (Sparse.step s0) = 3
  ∧ Sparse.gameStatus (Sparse.step s0) = won
  ∧ Sparse.clickStep s0 = s0.
Proof. vm_compute. split_and!; done. Qed.

(** ** History: every snapshot sits under its own T *)

Lemma historyKeyed_insert (h : gmap Z Registers) (r : Registers) :
  historyKeyed h → is_Some (r !! "T") → historyKeyed (<[getT r := r]> h).
Proof.
  intros Hh [t Ht] k r'. rewrite (getT_Some _ _ Ht).
  destruct (decide (t = k)) as [->|Hne].
  - rewrite lookup_insert_eq. by intros [= <-].
  - rewrite lookup_insert_ne by done. apply Hh.
Qed.

Lemma step_history (s : Sparse.Session) :
  Sparse.history (Sparse.step s)
  = <[getT (Sparse.registers (Sparse.step s)) := Sparse.registers (Sparse.step s)]>
      (Sparse.history s).
Proof.
  unfold Sparse.step, Sparse.execInstr.
  destruct (op (Sparse.fetch s)); simpl; try done.
  by case_bool_decide.
Qed.

Lemma step_has_T (s : Sparse.Session) :
  historyKeyed (Sparse.history s) →
  is_Some (Sparse.registers (Sparse.step s) !! "T").
Proof.
  intros Hh. rewrite step_registers. simpl.
  assert (Htick : is_Some (ticked (Sparse.registers s) !! "T")).
  { rewrite ticked_T. eauto. }
  destruct (op (Sparse.fetch s)); try done.
  - rewrite setRegister_T. case_decide; eauto.
  - destruct (Sparse.history s !! _) as [r|] eqn:Hr; simpl; [|done].
    rewrite (Hh _ _ Hr). eauto.
Qed.

Lemma step_timed (s : Sparse.Session) : timed s → timed (Sparse.step s).
Proof.
  intros [_ Hh]. split; [by apply step_has_T|].
  rewrite step_history. apply historyKeyed_insert; [done|by apply step_has_T].
Qed.

Lemma fire_timed (s : Sparse.Session) (e : Sparse.Event) :
  timed s → timed (Sparse.fire s e).
Proof.
  intros Hs. destruct e; simpl.
  - unfold Sparse.tick. destruct (_ || _); [done|by apply step_timed].
  - unfold Sparse.clickStep. case_bool_decide; [done|].
    unfold Sparse.manualStep. apply step_timed. simpl.
    by destruct (decide _).
  - unfold Sparse.clickRun. case_bool_decide; [done|].
    by destruct (decide _).
Qed.

Lemma reset_timed (level : Level) (newA : string) (s : Sparse.Session) :
  initialRegisters level !! "T" = Some 0 →
  Sparse.resetGame level newA = Some s → timed s.
Proof.
  unfold Sparse.resetGame. intros HT Hs.
  destruct (parseInt newA) as [a|]; simpl in Hs; [|done].
  injection Hs as <-. split; simpl.
  - rewrite lookup_insert_ne by done. eauto.
  - intros k r. intros [<- <-]%lookup_singleton_Some.
    by rewrite lookup_insert_ne.
Qed.

Lemma reachable_timed (level : Level) (s : Sparse.Session) :
  initialRegisters level !! "T" = Some 0 → reachable level s → timed s.
Proof.
  intros HT Hs. induction Hs as [|newA s Hreset|s _ IH|s e _ IH].
  - split; simpl; [eauto|].
    intros k r. by intros [<- <-]%lookup_singleton_Some.
  - by eapply reset_timed.
  - by apply step_timed.
  - by apply fire_timed.
Qed.

(** Every level of the repository starts at T = 0, so its sessions keep
    the invariant. *)
Lemma levels_start_at_0 (level : Level) :
  level ∈ levels → initialRegisters level !! "T" = Some 0.
Proof.
  unfold levels. intros Hin.
  repeat (apply elem_of_cons in Hin as [->|Hin]; [done|]).
  by apply elem_of_nil in Hin.
Qed.

Lemma repository_sessions_timed (level : Level) (s : Sparse.Session) :
  level ∈ levels → reachable level s → timed s.
Proof. intros Hin. by apply reachable_timed, levels_start_at_0. Qed.



(** ** Viewport *)

Section viewport_facts.
Context (prog : Program).

Lemma addNeighbours_elem (l : list Z) (acc : gset Z) (k : Z) :
  k ∈ foldl (fun (keysSet : gset Z) num =>
               keysSet ∪ {[num]} ∪ {[num - 1]} ∪ {[num + 1]}) acc l
  ↔ k ∈ acc ∨ ∃ num, num ∈ l ∧ (k = num ∨ k = num - 1 ∨ k = num + 1).
Proof.
  revert acc. induction l as [|n l IH]; intros acc; simpl.
  - split; [by left|]. intros [H|(num & H & _)]; [done|].
    by apply elem_of_nil in H.
  - rewrite IH, !elem_of_union, !elem_of_singleton. split.
    + intros [[[[H|H]|H]|H]|(num & Hin & H)].
      * by left.
      * right. exists n. split; [apply list_elem_of_here|tauto].
      * right. exists n. split; [apply list_elem_of_here|tauto].
      * right. exists n. split; [apply list_elem_of_here|tauto].
      * right. exists num. split; [by apply list_elem_of_further|done].
    + intros [H|(num & Hin & H)]; [tauto|].
      apply elem_of_cons in Hin as [->|Hin]; [tauto|].
      right. by exists num.
Qed.

Lemma displayKeys_elem (pc k : Z) :
  k ∈ displayKeys prog pc
  ↔ (∃ key, is_Some (prog !! key) ∧ (k = key ∨ k = key - 1 ∨ k = key + 1))
    ∨ k = pc - 1 ∨ k = pc ∨ k = pc + 1.
Proof.
  unfold displayKeys.
  rewrite !elem_of_union, !elem_of_singleton, addNeighbours_elem.
  setoid_rewrite elem_of_elements. setoid_rewrite elem_of_dom.
  rewrite elem_of_empty. tauto.
Qed.



Lemma displayLoop_cons (prev : option Z) (line : Z) (keys : list Z) :
  displayLoop prog prev (line :: keys)
  = from_option (fun p => gapBetween p line) [] prev
    ++ Line line (shownInstr prog line) :: displayLoop prog (Some line) keys.
Proof.
  simpl. destruct prev as [p|]; simpl; [|done].
  unfold gapBetween. by case_bool_decide.
Qed.

(** The loop carries only the previous key from one line to the next. *)
Lemma displayLoop_app (prev : option Z) (l1 : list Z) (x : Z) (l2 : list Z) :
  displayLoop prog prev (l1 ++ x :: l2)
  = displayLoop prog prev (l1 ++ [x]) ++ displayLoop prog (Some x) l2.
Proof.
  revert prev. induction l1 as [|y l1 IH]; intros prev.
  - change ([] ++ x :: l2) with (x :: l2). change ([] ++ [x]) with [x].
    rewrite (displayLoop_cons prev x l2), (displayLoop_cons prev x []).
    by rewrite <-app_assoc.
  - rewrite <-!app_comm_cons, !displayLoop_cons, IH.
    by rewrite <-app_assoc.
Qed.

Lemma displayLoop_snoc (prev : option Z) (l1 : list Z) (x : Z) :
  ∃ front, displayLoop prog prev (l1 ++ [x])
           = front ++ [Line x (shownInstr prog x)].
Proof.
  revert prev. induction l1 as [|y l1 IH]; intros prev.
  - change ([] ++ [x]) with [x]. rewrite (displayLoop_cons prev x []). eauto.
  - rewrite <-app_comm_cons, displayLoop_cons.
    destruct (IH (Some y)) as [front ->].
    eexists. rewrite app_comm_cons, app_assoc. done.
Qed.

Lemma shown_neighbours (prev : option Z) (l1 l2 : list Z) (a b : Z) :
  ∃ pre post,
    displayLoop prog prev (l1 ++ a :: b :: l2)
    = pre ++ Line a (shownInstr prog a)
          :: gapBetween a b ++ Line b (shownInstr prog b) :: post.
Proof.
  rewrite displayLoop_app, displayLoop_cons. simpl.
  destruct (displayLoop_snoc prev l1 a) as [front ->].
  exists front, (displayLoop prog (Some b) l2).
  by rewrite <-app_assoc.
Qed.
End viewport_facts.



Lemma sorted_keys_strict (S0 : gset Z) :
  StronglySorted Z.lt (merge_sort Z.le (elements S0)).
Proof.
  assert (Hnd : NoDup (merge_sort Z.le (elements S0))).
  { rewrite merge_sort_Permutation. apply NoDup_elements. }
  assert (Hs : StronglySorted Z.le (merge_sort Z.le (elements S0))).
  { apply StronglySorted_merge_sort; apply _. }
  induction Hs as [|x l Hs IH Hx]; [constructor|].
  apply NoDup_cons in Hnd as [Hnotin Hnd]. constructor; [by apply IH|].
  apply Forall_forall. intros y Hy.
  rewrite Forall_forall in Hx. specialize (Hx y Hy).
  assert (x ≠ y) by (intros ->; done). lia.
Qed.








(** ** End-to-end runs of the doubling bomb ([src/BombGame.js]) *)

(** With A = 0 the first step jumps to line 7 and the second one explodes. *)
Example doubling_A0 :
  (fun s => (Fixed.pc s, Fixed.gameStatus s, Fixed.registers s !! "T"))
    <$> ((Fixed.runGame <$> Fixed.resetGame doublingRegisters "0")
         ≫= Fixed.ticks doublingProgram 2)
  = Some (8, lost, Some 2).
Proof. by vm_compute. Qed.

(** With A = 16 the register B doubles four times and the bomb is defused
    by the 21st step; the timer does nothing afterwards. *)
Example doubling_A16 :
  (fun s => (Fixed.gameStatus s, Fixed.registers s !! "B", Fixed.registers s !! "T"))
    <$> ((Fixed.runGame <$> Fixed.resetGame doublingRegisters "16")
         ≫= Fixed.ticks doublingProgram 20)
  = Some (running, Some 16, Some 20)
  ∧ (fun s => (Fixed.gameStatus s, Fixed.registers s !! "B", Fixed.registers s !! "T"))
      <$> ((Fixed.runGame <$> Fixed.resetGame doublingRegisters "16")
           ≫= Fixed.ticks doublingProgram 21)
    = Some (won, Some 16, Some 21)
  ∧ (Fixed.runGame <$> Fixed.resetGame doublingRegisters "16")
      ≫= Fixed.ticks doublingProgram 30
    = (Fixed.runGame <$> Fixed.resetGame doublingRegisters "16")
      ≫= Fixed.ticks doublingProgram 21.
Proof. by vm_compute. Qed.

(** * Further properties of the code *)

(** ** [convertProgram]: numbering a list program *)

Lemma convertProgram_snoc (l : list Instr) (x : Instr) :
  convertProgram (ProgList (l ++ [x]))
  = <[Z.of_nat (length l) + 1 := x]> (convertProgram (ProgList l)).
Proof.
  unfold convertProgram. rewrite imap_app, foldl_app. simpl.
  by rewrite Nat.add_0_r.
Qed.

Lemma convertProgram_lookup (l : list Instr) (k : Z) :
  convertProgram (ProgList l) !! k
  = if decide (1 <= k) then l !! Z.to_nat (k - 1) else None.
Proof.
  induction l as [|x l IH] using rev_ind.
  - simpl. rewrite lookup_empty. by case_decide.
  - rewrite convertProgram_snoc.
    destruct (decide (k = Z.of_nat (length l) + 1)) as [->|Hne].
    + rewrite lookup_insert_eq, decide_True by lia.
      replace (Z.to_nat (Z.of_nat (length l) + 1 - 1)) with (length l) by lia.
      by rewrite lookup_app_r, Nat.sub_diag by lia.
    + rewrite lookup_insert_ne, IH by done. case_decide; [|done].
      destruct (decide (Z.to_nat (k - 1) < length l)%nat).
      * by rewrite lookup_app_l.
      * rewrite !lookup_ge_None_2; [done|rewrite length_app; simpl; lia|lia].
Qed.

Lemma convertProgram_size (l : list Instr) :
  size (convertProgram (ProgList l)) = length l.
Proof.
  induction l as [|x l IH] using rev_ind; [done|].
  rewrite convertProgram_snoc, map_size_insert_None, IH, length_app;
    [simpl; lia|].
  rewrite convertProgram_lookup, decide_True by lia.
  apply lookup_ge_None_2. lia.
Qed.

(** X1.  A list program gets the line numbers 1, 2, ..., in order: line
    [i + 1] holds the [i]-th instruction of the list, no line is numbered 0
    or below or beyond the length, and the store has as many lines as the
    list has instructions.  A dictionary program is taken as it is. *)
Theorem convertProgram_spec (l : list Instr) (d : Program) :
  (∀ i : nat, convertProgram (ProgList l) !! (Z.of_nat i + 1) = l !! i)
  ∧ (∀ k, k <= 0 ∨ Z.of_nat (length l) < k →
          convertProgram (ProgList l) !! k = None)
  ∧ size (convertProgram (ProgList l)) = length l
  ∧ convertProgram (ProgDict d) = d.
Proof.
  split_and!.
  - intros i. rewrite convertProgram_lookup, decide_True by lia.
    f_equal. lia.
  - intros k Hk. rewrite convertProgram_lookup. case_decide; [|done].
    apply lookup_ge_None_2. lia.
  - apply convertProgram_size.
  - done.
Qed.

Lemma convertProgram_spec_witness :
  convertProgram (levelProgram level1) !! 0 = None
  ∧ convertProgram (levelProgram level1) !! 4 = None.
Proof.
  destruct (convertProgram_spec
              [ mkInstr CJUMP [AStr "A"; AStr "="; ANum 5; ANum 3];
                mkInstr EXPLODE []; mkInstr DEFUSE [] ] ∅)
    as (_ & Hout & _).
  split; apply Hout; simpl; lia.
Defined.

(** ** [insertLine]: two insertions *)



(** ** Viewport: where gap markers stand *)

Section gap_facts.
Context (prog : Program).

(** A gap marker of the loop output is either its first entry, pushed for
    the previous key handed in, or stands between the entries of two
    neighbours of the key list that differ by more than one. *)
Lemma displayLoop_gap (keys : list Z) :
  ∀ prev pre post,
    displayLoop prog prev keys = pre ++ Gap :: post →
    (pre = [] ∧ ∃ p, prev = Some p)
    ∨ ∃ l1 a b l2,
        keys = l1 ++ a :: b :: l2 ∧ b - a > 1
        ∧ (∃ front, pre = front ++ [Line a (shownInstr prog a)])
        ∧ post = Line b (shownInstr prog b) :: displayLoop prog (Some b) l2.
Proof.
  induction keys as [|line rest IH]; intros prev pre post Hout.
  - simpl in Hout. by destruct pre.
  - rewrite displayLoop_cons in Hout.
    assert (Hrest : ∀ front pre1,
      pre1 ++ Gap :: post = displayLoop prog (Some line) rest →
      pre = front ++ Line line (shownInstr prog line) :: pre1 →
      ∃ l1 a b l2,
        line :: rest = l1 ++ a :: b :: l2 ∧ b - a > 1
        ∧ (∃ front', pre = front' ++ [Line a (shownInstr prog a)])
        ∧ post = Line b (shownInstr prog b) :: displayLoop prog (Some b) l2).
    { intros front pre1 Heq Hpre. symmetry in Heq.
      destruct (IH _ _ _ Heq) as [[-> _]|(l1 & a & b & l2 & Hk & Hgap & Hf & Hp)].
      - destruct rest as [|b rest']; [done|].
        rewrite displayLoop_cons in Heq. simpl in Heq.
        unfold gapBetween in Heq. case_bool_decide; [|done].
        injection Heq as <-. exists [], line, b, rest'.
        split_and!; [done|done|by exists front|done].
      - destruct Hf as [front' ->]. exists (line :: l1), a, b, l2.
        split_and!; [by rewrite Hk|done| |done].
        exists (front ++ Line line (shownInstr prog line) :: front').
        rewrite Hpre. by rewrite <-app_assoc. }
    destruct prev as [p|]; simpl in Hout.
    + unfold gapBetween in Hout. case_bool_decide; simpl in Hout.
      * destruct pre as [|d pre]; [left; eauto|]. right.
        injection Hout as <- Hout.
        destruct pre as [|d pre]; [done|]. injection Hout as <- Hout.
        by apply (Hrest [Gap] pre).
      * right. destruct pre as [|d pre]; [done|]. injection Hout as <- Hout.
        by apply (Hrest [] pre).
    + right. destruct pre as [|d pre]; [done|]. injection Hout as <- Hout.
      by apply (Hrest [] pre).
Qed.
End gap_facts.

(** X3.  In the viewport every gap marker stands directly between the
    entries of two shown lines whose numbers differ by more than one: the
    output never starts or ends with a marker and never holds two in a
    row. *)
Theorem viewport_gap_placement (prog : Program) (pc : Z)
    (pre post : list DisplayLine) :
  getDisplayedProgram prog pc = pre ++ Gap :: post →
  ∃ front a b back,
    pre = front ++ [Line a (default emptyInstr (prog !! a))]
    ∧ post = Line b (default emptyInstr (prog !! b)) :: back
    ∧ b - a > 1.
Proof.
  intros Hout. apply displayLoop_gap in Hout
    as [[_ [p [=]]]|(l1 & a & b & l2 & _ & Hgap & [front Hpre] & Hpost)].
  exists front, a, b, (displayLoop prog (Some b) l2). done.
Qed.

Lemma viewport_gap_placement_witness :
  let prog : Program := {[ 10 := mkInstr DEFUSE [] ]} in
  let pre := [Line 4 emptyInstr; Line 5 emptyInstr; Line 6 emptyInstr] in
  let post := [Line 9 emptyInstr; Line 10 (mkInstr DEFUSE []); Line 11 emptyInstr] in
  ∃ front a b back,
    pre = front ++ [Line a (default emptyInstr (prog !! a))]
    ∧ post = Line b (default emptyInstr (prog !! b)) :: back
    ∧ b - a > 1.
Proof.
  intros prog pre post.
  apply (viewport_gap_placement prog 5 pre post). by vm_compute.
Defined.

(** ** Viewport: what is shown, and how much *)









(** ** Viewport: gap markers and holes of the key set *)

Lemma sorted_hole (keys : list Z) (a b c : Z) :
  StronglySorted Z.lt keys → a ∈ keys → b ∈ keys → a < c < b → c ∉ keys →
  ∃ l1 x y l2, keys = l1 ++ x :: y :: l2 ∧ x < c < y.
Proof.
  intros Hs. revert a. induction Hs as [|k0 rest Hs IH Hk0]; intros a Ha Hb Hc Hnotin.
  - by apply elem_of_nil in Ha.
  - rewrite Forall_forall in Hk0.
    assert (Hk0c : k0 < c).
    { apply elem_of_cons in Ha as [->|Ha]; [lia|]. specialize (Hk0 a Ha). lia. }
    assert (Hbrest : b ∈ rest).
    { apply elem_of_cons in Hb as [->|Hb]; [lia|done]. }
    destruct rest as [|k1 rest']; [by apply elem_of_nil in Hbrest|].
    assert (k1 ≠ c).
    { intros ->. apply Hnotin. apply list_elem_of_further, list_elem_of_here. }
    destruct (decide (c < k1)) as [Hlt|Hge].
    + exists [], k0, k1, rest'. split; [done|lia].
    + destruct (IH k1) as (l1 & x & y & l2 & Hk & Hxy);
        [apply list_elem_of_here|done|lia| |].
      { intros Hin. apply Hnotin. by apply list_elem_of_further. }
      exists (k0 :: l1), x, y, l2. split; [by rewrite Hk|done].
Qed.

Lemma hole_gives_gap (prog : Program) (pc a b c : Z) :
  a ∈ displayKeys prog pc → b ∈ displayKeys prog pc → a < c < b →
  c ∉ displayKeys prog pc →
  Gap ∈ getDisplayedProgram prog pc.
Proof.
  intros Ha Hb Hc Hnotin.
  assert (Hmem : ∀ k, k ∈ merge_sort Z.le (elements (displayKeys prog pc))
                      ↔ k ∈ displayKeys prog pc).
  { intros k. rewrite merge_sort_Permutation. apply elem_of_elements. }
  destruct (sorted_hole (merge_sort Z.le (elements (displayKeys prog pc))) a b c)
    as (l1 & x & y & l2 & Hkeys & Hxy);
    [apply sorted_keys_strict|by apply Hmem..|done|by rewrite Hmem|].
  unfold getDisplayedProgram. rewrite Hkeys.
  destruct (shown_neighbours prog None l1 l2 x y) as (pre & post & ->).
  unfold gapBetween. rewrite bool_decide_eq_true_2 by lia.
  apply elem_of_app. right. apply list_elem_of_further, list_elem_of_here.
Qed.

Lemma gap_needs_hole (prog : Program) (pc : Z) :
  Gap ∈ getDisplayedProgram prog pc →
  ∃ a b, a ∈ displayKeys prog pc ∧ b ∈ displayKeys prog pc ∧ b - a > 1
         ∧ ∀ c, a < c < b → c ∉ displayKeys prog pc.
Proof.
  intros (pre & post & Hout)%list_elem_of_split.
  assert (Hmem : ∀ k, k ∈ merge_sort Z.le (elements (displayKeys prog pc))
                      ↔ k ∈ displayKeys prog pc).
  { intros k. rewrite merge_sort_Permutation. apply elem_of_elements. }
  pose proof (sorted_keys_strict (displayKeys prog pc)) as Hs.
  apply displayLoop_gap in Hout
    as [[_ [p [=]]]|(l1 & a & b & l2 & Hkeys & Hgap & _ & _)].
  rewrite Hkeys in Hs, Hmem. exists a, b. split_and!.
  - apply Hmem. apply elem_of_app. right. apply list_elem_of_here.
  - apply Hmem. apply elem_of_app. right.
    apply list_elem_of_further, list_elem_of_here.
  - done.
  - intros c Hc Hin%Hmem.
    apply StronglySorted_app in Hs as (Hcross & _ & Hs2).
    apply StronglySorted_cons in Hs2 as [Ha Hs2].
    apply StronglySorted_cons in Hs2 as [Hb _].
    rewrite Forall_forall in Ha, Hb.
    apply elem_of_app in Hin as [Hin|Hin].
    + specialize (Hcross c a Hin (list_elem_of_here _ _)). lia.
    + apply elem_of_cons in Hin as [->|Hin]; [lia|].
      apply elem_of_cons in Hin as [->|Hin]; [lia|].
      specialize (Hb c Hin). lia.
Qed.

(** X6.  The viewport holds a gap marker exactly when the set of line
    numbers it is built from has a hole: a number outside the set that
    lies between two numbers of the set. *)
Theorem viewport_gap_iff_hole (prog : Program) (pc : Z) :
  Gap ∈ getDisplayedProgram prog pc
  ↔ ∃ a b c, a ∈ displayKeys prog pc ∧ b ∈ displayKeys prog pc
             ∧ a < c < b ∧ c ∉ displayKeys prog pc.
Proof.
  split.
  - intros (a & b & Ha & Hb & Hgap & Hhole)%gap_needs_hole.
    exists a, b, (a + 1). split_and!; [done|done|lia|lia|].
    apply Hhole. lia.
  - intros (a & b & c & Ha & Hb & Hc & Hnotin).
    exact (hole_gives_gap prog pc a b c Ha Hb Hc Hnotin).
Qed.

Lemma displayKeys_list (l : list Instr) (pc k : Z) :
  k ∈ displayKeys (convertProgram (ProgList l)) pc
  ↔ (l ≠ [] ∧ 0 <= k <= Z.of_nat (length l) + 1) ∨ pc - 1 <= k <= pc + 1.
Proof.
  assert (Hline : ∀ key, is_Some (convertProgram (ProgList l) !! key)
                         ↔ 1 <= key <= Z.of_nat (length l)).
  { intros key. rewrite convertProgram_lookup. case_decide.
    - rewrite lookup_lt_is_Some. lia.
    - split; [by intros [? [=]]|lia]. }
  rewrite displayKeys_elem. split.
  - intros [(key & Hkey%Hline & Hk)|Hk]; [left|right; lia].
    split; [|lia]. intros ->. simpl in Hkey. lia.
  - intros [[Hne Hk]|Hk]; [left|right; lia].
    assert (1 <= Z.of_nat (length l)) by (destruct l; [done|simpl; lia]).
    destruct (decide (k = 0)) as [->|?]; [exists 1; rewrite Hline; lia|].
    destruct (decide (k = Z.of_nat (length l) + 1)) as [->|?].
    + exists (Z.of_nat (length l)). rewrite Hline. lia.
    + exists k. rewrite Hline. lia.
Qed.

(** X7.  For a program given as a list of [n >= 1] instructions, before any
    COPY, the viewport has a gap marker exactly when the pc has left the
    lines from [-2] to [n + 3]; for an empty program it never has one. *)
Theorem viewport_list_program (l : list Instr) (pc : Z) :
  Gap ∈ getDisplayedProgram (convertProgram (ProgList l)) pc
  ↔ l ≠ [] ∧ (pc < -2 ∨ Z.of_nat (length l) + 3 < pc).
Proof.
  split.
  - intros (a & b & Ha & Hb & Hgap & Hhole)%gap_needs_hole.
    specialize (Hhole (a + 1)). rewrite displayKeys_list in Ha, Hb, Hhole.
    destruct (decide (l = [])) as [->|Hne].
    + exfalso. apply Hhole; [lia|]. right.
      destruct Ha as [[? _]|Ha]; [done|]. destruct Hb as [[? _]|Hb]; [done|]. lia.
    + split; [done|].
      destruct (decide (pc < -2 ∨ Z.of_nat (length l) + 3 < pc)); [done|].
      exfalso. apply Hhole; [lia|].
      destruct Ha as [[_ Ha]|Ha], Hb as [[_ Hb]|Hb];
        destruct (decide (a + 1 <= Z.of_nat (length l) + 1));
        try (left; split; [done|lia]); right; lia.
  - intros [Hne [Hpc|Hpc]].
    + apply (hole_gives_gap _ pc (pc + 1) 0 (pc + 2));
        rewrite ?displayKeys_list; [right; lia|left; split; [done|lia]|lia|].
      intros [[_ ?]|?]; lia.
    + apply (hole_gives_gap _ pc (Z.of_nat (length l) + 1) (pc - 1)
                            (Z.of_nat (length l) + 2));
        rewrite ?displayKeys_list; [left; split; [done|lia]|right; lia|lia|].
      intros [[_ ?]|?]; lia.
Qed.

Lemma viewport_list_program_witness :
  Gap ∈ getDisplayedProgram (convertProgram (levelProgram level1)) 8.
Proof.
  apply (viewport_list_program
           [ mkInstr CJUMP [AStr "A"; AStr "="; ANum 5; ANum 3];
             mkInstr EXPLODE []; mkInstr DEFUSE [] ] 8).
  split; [done|]. right. simpl. lia.
Defined.

(** ** Interpreter (sparse-line-map version): what a step leaves alone *)










(** ** Interpreter (sparse-line-map version): registers and history *)



(** X12.  A step files the snapshot it returns in the history under that
    snapshot's T, replacing what was recorded there, and touches no other
    entry: the history never loses a key, and a later snapshot for a time
    value replaces the earlier one. *)
Theorem step_history_overwrite (s : Sparse.Session) :
  let regs' := Sparse.registers (Sparse.step s) in
  Sparse.history (Sparse.step s) !! getT regs' = Some regs'
  ∧ (∀ k, k ≠ getT regs' →
          Sparse.history (Sparse.step s) !! k = Sparse.history s !! k)
  ∧ dom (Sparse.history s) ⊆ dom (Sparse.history (Sparse.step s)).
Proof.
  intros regs'. subst regs'. rewrite step_history. split_and!.
  - apply lookup_insert_eq.
  - intros k Hk. by apply lookup_insert_ne.
  - rewrite dom_insert. apply union_subseteq_r.
Qed.

(** ** Session controller (sparse-line-map version) *)

Lemma step_recorded (s : Sparse.Session) : recorded (Sparse.step s).
Proof. unfold recorded. rewrite step_history. apply lookup_insert_eq. Qed.

Lemma fire_recorded (s : Sparse.Session) (e : Sparse.Event) :
  recorded s → recorded (Sparse.fire s e).
Proof.
  intros Hs. destruct e; simpl.
  - unfold Sparse.tick. destruct (_ || _); [done|apply step_recorded].
  - unfold Sparse.clickStep. case_bool_decide; [done|].
    unfold Sparse.manualStep. apply step_recorded.
  - unfold Sparse.clickRun. case_bool_decide; [done|].
    by destruct (decide _).
Qed.

(** X13.  In every session reachable from the initial state or a reset of
    a level that starts at T = 0, the history holds the current snapshot
    at the current T: what is displayed as the registers is always what a
    TTRAVEL to the present would restore. *)
Theorem current_snapshot_recorded (level : Level) (s : Sparse.Session) :
  initialRegisters level !! "T" = Some 0 →
  reachable level s →
  ∃ t, Sparse.registers s !! "T" = Some t
       ∧ Sparse.history s !! t = Some (Sparse.registers s).
Proof.
  intros HT Hs.
  assert (Hrec : recorded s).
  { induction Hs as [|newA s Hreset|s _ _|s e _ IH].
    - unfold recorded, getT. simpl. rewrite HT. apply lookup_singleton_eq.
    - unfold Sparse.resetGame in Hreset.
      destruct (parseInt newA) as [a|]; simpl in Hreset; [|done].
      injection Hreset as <-. unfold recorded, getT. simpl.
      rewrite lookup_insert_ne, HT by done. apply lookup_singleton_eq.
    - apply step_recorded.
    - by apply fire_recorded. }
  destruct (reachable_timed level s HT Hs) as [[t Ht] _].
  exists t. split; [done|]. by rewrite <-(getT_Some _ _ Ht).
Qed.

Lemma current_snapshot_recorded_witness :
  ∃ t, Sparse.registers rewindSession !! "T" = Some t
       ∧ Sparse.history rewindSession !! t = Some (Sparse.registers rewindSession).
Proof.
  apply (current_snapshot_recorded rewindLevel); [reflexivity|].
  do 3 apply reach_step. by apply (reach_reset rewindLevel "0").
Defined.

Lemma step_rank (s : Sparse.Session) :
  (statusRank (Sparse.gameStatus s) ≤ statusRank (Sparse.gameStatus (Sparse.step s)))%nat.
Proof.
  rewrite step_status.
  destruct (op (Sparse.fetch s)), (Sparse.gameStatus s); simpl; lia.
Qed.

Lemma fire_rank (s : Sparse.Session) (e : Sparse.Event) :
  (statusRank (Sparse.gameStatus s)
   ≤ statusRank (Sparse.gameStatus (Sparse.fire s e)))%nat.
Proof.
  destruct e; simpl.
  - unfold Sparse.tick. destruct (_ || _); [done|apply step_rank].
  - unfold Sparse.clickStep. case_bool_decide; [done|].
    rewrite manualStep_status.
    destruct (op (Sparse.fetch s)), (Sparse.gameStatus s); simpl; lia.
  - unfold Sparse.clickRun. case_bool_decide as Hw; [done|].
    rewrite decide_True by done. simpl.
    rewrite Hw. simpl. lia.
Qed.

(** X14.  The game status only moves forward, from waiting to running to
    won or lost, under any sequence of timer ticks and button clicks: it
    never returns to waiting and never leaves won or lost; and the timer
    alone never starts a waiting game. *)
Theorem status_moves_forward (s : Sparse.Session) (es : list Sparse.Event) :
  (statusRank (Sparse.gameStatus s)
   ≤ statusRank (Sparse.gameStatus (foldl Sparse.fire s es)))%nat
  ∧ (Sparse.gameStatus s = waiting → Sparse.tick s = s).
Proof.
  split.
  - revert s. induction es as [|e es IH]; intros s; simpl; [done|].
    etrans; [apply (fire_rank s e)|apply IH].
  - intros Hw. unfold Sparse.tick. rewrite Hw.
    by rewrite orb_true_r.
Qed.

(** ** Reading the player's number *)

Lemma string_app_assoc (a b c : string) : (a +:+ b) +:+ c = a +:+ (b +:+ c).
Proof.
  induction a as [|x a IH]; [done|].
  change ((String x a +:+ b) +:+ c) with (String x ((a +:+ b) +:+ c)).
  by rewrite IH.
Qed.

Lemma pretty_N_go_app (x : N) :
  ∀ s, pretty_N_go x s = pretty_N_go x "" +:+ s.
Proof.
  induction (N.lt_wf_0 x) as [x _ IH]. intros s.
  destruct (N.eq_0_gt_0_cases x) as [->|Hx]; [done|].
  assert (Hlt : (x `div` 10 < x)%N) by (by apply N.div_lt).
  rewrite !(pretty_N_go_step x) by done.
  rewrite (IH _ Hlt (String _ s)), (IH _ Hlt (String _ "")).
  by rewrite string_app_assoc.
Qed.

Lemma readDigits_unread (junk : string) (a : Z) :
  unread junk → readDigits junk (Some a) = Some a.
Proof. destruct junk as [|c junk]; simpl; [done|]. by intros ->. Qed.

Lemma readDigits_pretty_junk (p : positive) (junk : string) :
  unread junk →
  readDigits (pretty_N_go (N.pos p) "" +:+ junk) None = Some (Z.pos p).
Proof.
  intros Hjunk. rewrite <-pretty_N_go_app.
  rewrite (readDigits_pretty_go (N.pos p) junk 0 0); [f_equal; lia|lia|lia| |done].
  intros a. rewrite readDigits_unread by done. f_equal. lia.
Qed.

Lemma skipWhite_app (ws s : string) :
  allWhite ws → skipWhite (ws +:+ s) = skipWhite s.
Proof.
  unfold allWhite. induction ws as [|c ws IH]; simpl; [done|].
  intros [Hc Hws]%Forall_cons. change (String c ws +:+ s) with (String c (ws +:+ s)).
  simpl. rewrite Hc. by apply IH.
Qed.

Lemma parseInt_skip (ws s : string) :
  allWhite ws → parseInt (ws +:+ s) = parseInt s.
Proof. intros Hws. unfold parseInt. by rewrite skipWhite_app. Qed.

Lemma parseInt_pretty_junk (n : Z) (junk : string) :
  unread junk → parseInt (pretty n +:+ junk) = Some n.
Proof.
  intros Hjunk. destruct n as [|p|p].
  - change (pretty 0 +:+ junk) with (String "0" junk).
    destruct junk as [|c junk]; [done|]. simpl in Hjunk.
    unfold parseInt. simpl. by rewrite Hjunk.
  - change (pretty (Z.pos p)) with (pretty_N_go (N.pos p) "").
    destruct (pretty_go_head (N.pos p) "") as (d & r & Hd & Hhead); [lia|].
    rewrite <-readDigits_pretty_junk with (junk := junk) by done.
    rewrite Hhead. change (String (pretty_N_char d) r +:+ junk)
                     with (String (pretty_N_char d) (r +:+ junk)).
    by apply parseInt_digit_head.
  - change (pretty (Z.neg p)) with (String "-" (pretty_N_go (N.pos p) "")).
    change (String "-" (pretty_N_go (N.pos p) "") +:+ junk)
      with (String "-" (pretty_N_go (N.pos p) "" +:+ junk)).
    unfold parseInt. simpl. by rewrite readDigits_pretty_junk.
Qed.

Lemma parseInt_blank (ws : string) : allWhite ws → parseInt ws = None.
Proof.
  intros Hws. unfold parseInt.
  assert (skipWhite ws = "") as ->; [|done].
  unfold allWhite in Hws. induction ws as [|c ws IH]; [done|].
  simpl in *. apply Forall_cons in Hws as [-> Hws]. by apply IH.
Qed.

(** X15.  A reset reads the player's text with [parseInt]: white space
    before the number and anything that is no digit after it are ignored,
    so the decimal numeral of a safe integer [a] puts [a] in register A,
    leaves the other registers of the level as they are, and starts at the
    first line, waiting, with this snapshot as the only history entry (at
    key 0).  A blank text gives no integer.  Both versions agree, up to
    the first line being 1 or 0. *)
Theorem resetGame_reads_number (level : Level) (ws junk : string) (a : Z) :
  safeInteger a → allWhite ws → unread junk →
  let regs := <["A" := a]> (initialRegisters level) in
  Sparse.resetGame level (ws +:+ pretty a +:+ junk)
  = Some (Sparse.mkSession regs 1 {[ 0 := regs ]} waiting false
            (convertProgram (levelProgram level)))
  ∧ Fixed.resetGame (initialRegisters level) (ws +:+ pretty a +:+ junk)
    = Some (Fixed.mkSession regs 0 {[ 0 := regs ]} waiting false)
  ∧ (∀ name, name ≠ "A" → regs !! name = initialRegisters level !! name)
  ∧ Sparse.resetGame level ws = None
  ∧ Fixed.resetGame (initialRegisters level) ws = None.
Proof.
  intros _ Hws Hjunk regs.
  assert (Hparse : parseInt (ws +:+ pretty a +:+ junk) = Some a).
  { rewrite parseInt_skip by done. by apply parseInt_pretty_junk. }
  unfold Sparse.resetGame, Fixed.resetGame.
  rewrite Hparse, (parseInt_blank ws Hws). split_and!; try done.
  intros name Hne. by apply lookup_insert_ne.
Qed.

Lemma resetGame_reads_number_witness :
  (λ s, Sparse.registers s !! "A") <$> Sparse.resetGame level2 " 16.5" = Some (Some 16)
  ∧ Sparse.resetGame level2 "  " = None.
Proof.
  assert (Hsafe : ∀ n, Z.abs n <= 16 → safeInteger n).
  { intros n Hn. unfold safeInteger. etrans; [exact Hn|]. by vm_compute. }
  destruct (resetGame_reads_number level2 " " ".5" 16) as (Hs & _ & _ & Hblank & _).
  - apply Hsafe. simpl. lia.
  - repeat constructor.
  - reflexivity.
  - split.
    + change " 16.5" with (" " +:+ pretty 16 +:+ ".5"). by rewrite Hs.
    + pose proof (resetGame_reads_number level2 "  " "" 0) as H.
      apply H; [apply Hsafe; simpl; lia|repeat constructor|done].
Defined.

(** ** The fixed-length-array version *)

(** What an in-bounds step of the fixed version returns, field by field. *)
Lemma fixed_step_shape (program : list Instr) (s s' : Fixed.Session) :
  inBounds program s → Fixed.step program s = Some s' →
  let instr := program !!! Z.to_nat (Fixed.pc s) in
  let regs := ticked (Fixed.registers s) in
  let regs' :=
    match op instr with
    | ADD => setRegister (argAt instr 2)
               (getValue (argAt instr 0) regs + getValue (argAt instr 1) regs) regs
    | TTRAVEL => default regs (Fixed.history s !! (getT (Fixed.registers s) + 1))
    | _ => regs
    end in
  Fixed.registers s' = regs'
  ∧ Fixed.history s' = <[getT regs' := regs']> (Fixed.history s)
  ∧ Fixed.gameStatus s'
    = match op instr with
      | DEFUSE => won | EXPLODE => lost | _ => Fixed.gameStatus s
      end
  ∧ Fixed.isRunning s'
    = match op instr with
      | DEFUSE | EXPLODE => false | _ => Fixed.isRunning s
      end
  ∧ Some (Fixed.pc s')
    = match op instr with
      | JMP => Fixed.rawLine (argAt instr 0)
      | BEQ | BNE | BGT | BLT =>
          if Fixed.branchTaken (op instr) (regs !! propertyKey (argAt instr 0))
                               (getValue (argAt instr 1) regs)
          then Fixed.rawLine (argAt instr 2) else Some (Fixed.pc s + 1)
      | _ => Some (Fixed.pc s + 1)
      end.
Proof.
  intros [Hlo Hhi]. unfold Fixed.step.
  rewrite bool_decide_eq_false_2 by lia.
  fold (ticked (Fixed.registers s)). rewrite getT_ticked.
  destruct (op (program !!! Z.to_nat (Fixed.pc s))) eqn:Hop; simpl;
    try (intros [= <-]; simpl; done);
    try (destruct (Fixed.history s !! _); intros [= <-]; simpl; done).
  all: match goal with
       | |- (?o ≫= _) = _ → _ =>
           destruct o as [n|]; simpl; [intros [= <-]; simpl; done|done]
       end.
Qed.

Lemma fixed_step_out (program : list Instr) (s : Fixed.Session) :
  ¬ inBounds program s →
  Fixed.step program s
  = Some (Fixed.setIsRunning false (Fixed.setGameStatus lost s)).
Proof.
  intros Hout. unfold Fixed.step. rewrite bool_decide_eq_true_2; [done|].
  unfold inBounds in Hout. lia.
Qed.





(** X17.  In the fixed-length-array version a won or lost game is closed
    to the page: the timer returns the session as it is and so does the
    Run button; the timer does not start a waiting game either, which only
    the Run button does; and whatever the timer does, the status only
    moves forward from waiting to running to won or lost. *)
Theorem fixed_controller (program : list Instr) (s : Fixed.Session) :
  (Fixed.gameStatus s = won ∨ Fixed.gameStatus s = lost →
     Fixed.tick program s = Some s ∧ Fixed.runGame s = s)
  ∧ (Fixed.gameStatus s = waiting →
     Fixed.tick program s = Some s
     ∧ Fixed.runGame s = Fixed.mkSession (Fixed.registers s) (Fixed.pc s)
                           (Fixed.history s) running true)
  ∧ (∀ s', Fixed.tick program s = Some s' →
       (statusRank (Fixed.gameStatus s) ≤ statusRank (Fixed.gameStatus s'))%nat).
Proof.
  split_and!.
  - intros Hterm. split.
    + unfold Fixed.tick. rewrite (bool_decide_eq_false_2 (_ = running)).
      * by rewrite orb_true_r.
      * destruct Hterm as [H|H]; rewrite H; discriminate.
    + unfold Fixed.runGame. rewrite decide_False; [done|].
      destruct Hterm as [H|H]; rewrite H; discriminate.
  - intros Hw. split.
    + unfold Fixed.tick. rewrite Hw. by rewrite orb_true_r.
    + unfold Fixed.runGame. by rewrite decide_True.
  - intros s' Htick. unfold Fixed.tick in Htick.
    destruct (negb (Fixed.isRunning s)
              || negb (bool_decide (Fixed.gameStatus s = running))) eqn:Hguard.
    + by injection Htick as <-.
    + apply orb_false_iff in Hguard as [_ Hrun].
      apply negb_false_iff, bool_decide_eq_true in Hrun. rewrite Hrun.
      destruct (decide (inBounds program s)) as [Hin|Hout].
      * destruct (fixed_step_shape program s s' Hin Htick) as (_ & _ & -> & _).
        rewrite Hrun. destruct (op _); simpl; lia.
      * rewrite fixed_step_out in Htick by done. injection Htick as <-.
        simpl. lia.
Qed.

Lemma fixed_controller_witness :
  let s0 := Fixed.mkSession doublingRegisters 7 {[ 0 := doublingRegisters ]} lost false in
  Fixed.tick doublingProgram s0 = Some s0.
Proof.
  intros s0. destruct (fixed_controller doublingProgram s0) as (Hterm & _).
  apply Hterm. by right.
Defined.





Lemma numericTargets_at (program : list Instr) (s : Fixed.Session) :
  numericTargets program → inBounds program s →
  match op (program !!! Z.to_nat (Fixed.pc s)) with
  | JMP => is_Some (Fixed.rawLine (argAt (program !!! Z.to_nat (Fixed.pc s)) 0))
  | BEQ | BNE | BGT | BLT =>
      is_Some (Fixed.rawLine (argAt (program !!! Z.to_nat (Fixed.pc s)) 2))
  | _ => True
  end.
Proof.
  intros Hnum [Hlo Hhi]. apply Hnum.
  destruct (lookup_lt_is_Some_2 program (Z.to_nat (Fixed.pc s))) as [i Hi]; [lia|].
  rewrite (list_lookup_total_correct _ _ _ Hi).
  by eapply list_elem_of_lookup_2.
Qed.

(** X20.  When every jump target of the program is a number literal, as in
    the level of the repository, each step has a result with an integer
    pc, from every session: the interpreter never leaves the integers,
    wherever the pc points. *)
Theorem fixed_step_total (program : list Instr) (s : Fixed.Session) :
  numericTargets program → is_Some (Fixed.step program s).
Proof.
  intros Hnum. destruct (decide (inBounds program s)) as [Hin|Hout].
  - pose proof (numericTargets_at program s Hnum Hin) as Hat.
    destruct Hin as [Hlo Hhi]. unfold Fixed.step.
    rewrite bool_decide_eq_false_2 by lia.
    destruct (op (program !!! Z.to_nat (Fixed.pc s))) eqn:Hop; simpl; eauto;
      try (destruct (Fixed.history s !! _); simpl; eauto; fail);
      destruct Hat as [n ->]; simpl; eauto;
      match goal with |- context [if ?c then _ else _] => destruct c end;
      simpl; eauto.
  - rewrite fixed_step_out by done. eauto.
Qed.

Lemma doubling_numericTargets : numericTargets doublingProgram.
Proof.
  intros instr Hin. unfold doublingProgram in Hin.
  repeat (apply elem_of_cons in Hin as [->|Hin]; [simpl; eauto|]).
  by apply elem_of_nil in Hin.
Qed.

Lemma fixed_step_total_witness :
  is_Some (Fixed.step doublingProgram (Fixed.initialSession doublingRegisters)).
Proof. apply fixed_step_total, doubling_numericTargets. Defined.

(** ** What the player's number decides *)

Lemma fixed_ticks_S (program : list Instr) (n : nat) (s : Fixed.Session) :
  Fixed.ticks program (S n) s = Fixed.tick program s ≫= Fixed.ticks program n.
Proof.
  unfold Fixed.ticks. induction n as [|n IH].
  - simpl. by destruct (Fixed.tick program s).
  - rewrite Nat.iter_succ, IH. simpl.
    by destruct (Fixed.tick program s).
Qed.

Lemma fixed_ticks_terminal (program : list Instr) (n : nat) (s : Fixed.Session) :
  Fixed.gameStatus s = won ∨ Fixed.gameStatus s = lost →
  Fixed.ticks program n s = Some s.
Proof.
  intros Hterm. induction n as [|n IH]; [done|].
  rewrite fixed_ticks_S.
  assert (Fixed.tick program s = Some s) as ->; [|done].
  unfold Fixed.tick. rewrite (bool_decide_eq_false_2 (_ = running)).
  - by rewrite orb_true_r.
  - destruct Hterm as [H|H]; rewrite H; discriminate.
Qed.

Lemma fixed_ticks_add (program : list Instr) (n m : nat) (s : Fixed.Session) :
  Fixed.ticks program (n + m) s
  = Fixed.ticks program n s ≫= Fixed.ticks program m.
Proof.
  revert s. induction n as [|n IH]; intros s; [done|].
  simpl plus. rewrite !fixed_ticks_S.
  destruct (Fixed.tick program s) as [s'|]; simpl; [apply IH|done].
Qed.

(** Once the status is decided after [n] ticks, it is the status after
    any larger number of ticks. *)
Lemma fixed_decided (program : list Instr) (n m : nat) (s : Fixed.Session)
    (st : GameStatus) :
  st = won ∨ st = lost → (n ≤ m)%nat →
  Fixed.gameStatus <$> Fixed.ticks program n s = Some st →
  Fixed.gameStatus <$> Fixed.ticks program m s = Some st.
Proof.
  intros Hst Hle Hn. replace m with (n + (m - n))%nat by lia.
  rewrite fixed_ticks_add.
  destruct (Fixed.ticks program n s) as [s'|]; simpl in *; [|done].
  injection Hn as Hn. rewrite fixed_ticks_terminal; [by simpl; f_equal|].
  rewrite Hn. done.
Qed.

#[local] Arguments Fixed.ticks : simpl never.

Ltac fixed_tick n :=
  rewrite (fixed_ticks_S doublingProgram n); unfold Fixed.tick at 1; simpl;
  unfold Fixed.step; simpl;
  rewrite ?lookup_insert_ne by done; rewrite ?lookup_insert_eq; simpl.

Lemma doubling_low (a : Z) : a < 10 →
  Fixed.gameStatus <$> Fixed.ticks doublingProgram 2 (doublingStart a) = Some lost.
Proof.
  intros Ha. unfold doublingStart.
  fixed_tick 1%nat. rewrite bool_decide_eq_true_2 by lia. done.
Qed.

Lemma doubling_high (a : Z) : 50 < a →
  Fixed.gameStatus <$> Fixed.ticks doublingProgram 3 (doublingStart a) = Some lost.
Proof.
  intros Ha. unfold doublingStart.
  fixed_tick 2%nat. rewrite bool_decide_eq_false_2 by lia. simpl.
  fixed_tick 1%nat. rewrite bool_decide_eq_true_2 by lia. done.
Qed.

Lemma doubling_middle :
  Forall (fun a => Fixed.gameStatus <$> Fixed.ticks doublingProgram 44 (doublingStart a)
                   = Some (if bool_decide (a = 16 ∨ a = 32) then won else lost))
         (seqZ 10 41).
Proof. apply (bool_decide_unpack _). by vm_compute. Qed.

(** X21.  The doubling bomb of [src/BombGame.js] is defused by exactly two
    numbers: whatever integer the player types for A, once Run is pressed
    the game is decided within 44 timer ticks, won for A = 16 and A = 32
    and lost for every other value, and it stays so. *)
Theorem doubling_outcome (a : Z) (n : nat) :
  (44 ≤ n)%nat →
  Fixed.gameStatus
    <$> ((Fixed.runGame <$> Fixed.resetGame doublingRegisters (pretty a))
         ≫= Fixed.ticks doublingProgram n)
  = Some (if bool_decide (a = 16 ∨ a = 32) then won else lost).
Proof.
  intros Hn. unfold Fixed.resetGame. rewrite parseInt_pretty. simpl.
  change (Fixed.runGame _) with (doublingStart a).
  assert (Hst : ∀ b : bool, (if b then won else lost) = won
                            ∨ (if b then won else lost) = lost).
  { intros []; eauto. }
  destruct (decide (a < 10)) as [Hlow|Hlow'].
  { rewrite bool_decide_eq_false_2 by lia.
    apply (fixed_decided _ 2); [eauto|lia|by apply doubling_low]. }
  destruct (decide (50 < a)) as [Hhigh|Hhigh'].
  { rewrite bool_decide_eq_false_2 by lia.
    apply (fixed_decided _ 3); [eauto|lia|by apply doubling_high]. }
  apply (fixed_decided _ 44); [apply Hst|done|].
  pose proof doubling_middle as Hmid. rewrite Forall_forall in Hmid.
  apply Hmid. apply elem_of_seqZ. lia.
Qed.

Lemma doubling_outcome_witness :
  Fixed.gameStatus
    <$> ((Fixed.runGame <$> Fixed.resetGame doublingRegisters "32")
         ≫= Fixed.ticks doublingProgram 44)
  = Some won.
Proof. apply (doubling_outcome 32 44). lia. Defined.

Lemma sparse_ticks_S (n : nat) (s : Sparse.Session) :
  sparseTicks (S n) s = sparseTicks n (Sparse.tick s).
Proof. unfold sparseTicks. by rewrite Nat.iter_succ_r. Qed.

Lemma sparse_ticks_terminal (n : nat) (s : Sparse.Session) :
  Sparse.terminal s → sparseTicks n s = s.
Proof.
  intros Hterm. induction n as [|n IH]; [done|].
  rewrite sparse_ticks_S. change (Sparse.tick s) with (Sparse.fire s Sparse.Tick).
  by rewrite (fire_terminal s Sparse.Tick Hterm).
Qed.

Lemma sparse_decided (n m : nat) (s : Sparse.Session) (st : GameStatus) :
  st = won ∨ st = lost → (n ≤ m)%nat →
  Sparse.gameStatus (sparseTicks n s) = st →
  Sparse.gameStatus (sparseTicks m s) = st.
Proof.
  intros Hst Hle Hn. replace m with ((m - n) + n)%nat by lia.
  unfold sparseTicks. rewrite Nat.iter_add.
  fold (sparseTicks n s). fold (sparseTicks (m - n) (sparseTicks n s)).
  rewrite sparse_ticks_terminal; [done|].
  unfold Sparse.terminal. rewrite Hn. done.
Qed.

#[local] Arguments sparseTicks : simpl never.

Ltac sparse_tick n :=
  rewrite (sparse_ticks_S n); unfold Sparse.tick at 1; simpl;
  unfold Sparse.step;
  match goal with
  | |- context [Sparse.execInstr (Sparse.fetch ?s) _] =>
      let i := eval vm_compute in (Sparse.fetch s) in
      change (Sparse.fetch s) with i
  end;
  unfold Sparse.execInstr; simpl;
  unfold getValue; simpl;
  rewrite ?lookup_insert_ne by done; rewrite ?lookup_insert_eq; simpl.

Lemma level1_right (a : Z) : a = 5 →
  Sparse.gameStatus (sparseTicks 2 (sparseStart level1 a)) = won.
Proof. intros ->. by vm_compute. Qed.

Lemma level1_wrong (a : Z) : a ≠ 5 →
  Sparse.gameStatus (sparseTicks 2 (sparseStart level1 a)) = lost.
Proof.
  intros Ha. unfold sparseStart.
  sparse_tick 1%nat. rewrite bool_decide_eq_false_2 by lia. simpl.
  sparse_tick 0%nat. done.
Qed.

(** X22.  Level 1 is defused by A = 5 only: for every integer typed for A,
    two timer ticks after Run decide the game, won for 5 and lost for
    anything else, and it stays so. *)
Theorem level1_outcome (a : Z) (n : nat) :
  (2 ≤ n)%nat →
  (λ s, Sparse.gameStatus (sparseTicks n (Sparse.clickRun s)))
    <$> Sparse.resetGame level1 (pretty a)
  = Some (if bool_decide (a = 5) then won else lost).
Proof.
  intros Hn. unfold Sparse.resetGame. rewrite parseInt_pretty. simpl. f_equal.
  change (Sparse.clickRun _) with (sparseStart level1 a).
  case_bool_decide.
  - apply (sparse_decided 2); [eauto|done|by apply level1_right].
  - apply (sparse_decided 2); [eauto|done|by apply level1_wrong].
Qed.

Lemma level2_low (a : Z) : a < 10 →
  Sparse.gameStatus (sparseTicks 2 (sparseStart level2 a)) = lost.
Proof.
  intros Ha. unfold sparseStart.
  sparse_tick 1%nat. rewrite bool_decide_eq_true_2 by lia. simpl.
  sparse_tick 0%nat. done.
Qed.

Lemma level2_high (a : Z) : 50 < a →
  Sparse.gameStatus (sparseTicks 3 (sparseStart level2 a)) = lost.
Proof.
  intros Ha. unfold sparseStart.
  sparse_tick 2%nat. rewrite bool_decide_eq_false_2 by lia. simpl.
  sparse_tick 1%nat. rewrite bool_decide_eq_true_2 by lia. simpl.
  sparse_tick 0%nat. done.
Qed.

Lemma level2_middle :
  Forall (fun a => Sparse.gameStatus (sparseTicks 44 (sparseStart level2 a))
                   = (if bool_decide (a = 16 ∨ a = 32) then won else lost))
         (seqZ 10 41).
Proof. apply (bool_decide_unpack _). by vm_compute. Qed.

(** X23.  Level 2, the doubling bomb in the generic instruction set, is
    defused by A = 16 and A = 32 only, as its fixed-array original: for
    every integer typed for A the game is decided within 44 timer ticks
    after Run. *)
Theorem level2_outcome (a : Z) (n : nat) :
  (44 ≤ n)%nat →
  (λ s, Sparse.gameStatus (sparseTicks n (Sparse.clickRun s)))
    <$> Sparse.resetGame level2 (pretty a)
  = Some (if bool_decide (a = 16 ∨ a = 32) then won else lost).
Proof.
  intros Hn. unfold Sparse.resetGame. rewrite parseInt_pretty. simpl. f_equal.
  change (Sparse.clickRun _) with (sparseStart level2 a).
  assert (Hst : ∀ b : bool, (if b then won else lost) = won
                            ∨ (if b then won else lost) = lost).
  { intros []; eauto. }
  destruct (decide (a < 10)) as [Hlow|Hlow'].
  { rewrite bool_decide_eq_false_2 by lia.
    apply (sparse_decided 2); [eauto|lia|by apply level2_low]. }
  destruct (decide (50 < a)) as [Hhigh|Hhigh'].
  { rewrite bool_decide_eq_false_2 by lia.
    apply (sparse_decided 3); [eauto|lia|by apply level2_high]. }
  apply (sparse_decided 44); [apply Hst|done|].
  pose proof level2_middle as Hmid. rewrite Forall_forall in Hmid.
  apply Hmid. apply elem_of_seqZ. lia.
Qed.

Lemma level1_outcome_witness :
  (λ s, Sparse.gameStatus (sparseTicks 2 (Sparse.clickRun s)))
    <$> Sparse.resetGame level1 "7"
  = Some lost.
Proof. apply (level1_outcome 7 2). lia. Defined.

Lemma level2_outcome_witness :
  (λ s, Sparse.gameStatus (sparseTicks 50 (Sparse.clickRun s)))
    <$> Sparse.resetGame level2 "16"
  = Some won.
Proof. apply (level2_outcome 16 50). lia. Defined.

(** ** Witnesses of the unconditional statements above *)

Lemma step_history_overwrite_witness :
  let regs : Registers := {[ "A" := 3; "B" := 1; "T" := 0 ]} in
  let s0 := Sparse.mkSession regs 5 {[ 0 := regs ]} running true
              (convertProgram (levelProgram level2)) in
  Sparse.history (Sparse.step s0) !! 0 = Some regs.
Proof.
  intros regs s0.
  destruct (step_history_overwrite s0) as (_ & Hother & _).
  rewrite Hother; [reflexivity|]. by vm_compute.
Defined.

Lemma status_moves_forward_witness :
  Sparse.tick (Sparse.initialSession level1) = Sparse.initialSession level1.
Proof.
  destruct (status_moves_forward (Sparse.initialSession level1) []) as [_ Hwait].
  by apply Hwait.
Defined.

Lemma viewport_gap_iff_hole_witness :
  Gap ∈ getDisplayedProgram {[ 10 := mkInstr DEFUSE [] ]} 5.
Proof.
  apply viewport_gap_iff_hole. exists 6, 9, 7.
  split_and!; [by apply (bool_decide_unpack _); vm_compute..|lia|lia|].
  by apply (bool_decide_unpack _); vm_compute.
Defined.
